(** * Admin dashboard security layer: sanitizers, login rate limiter,
      authentication session and product form validation.

    The development follows the admin dashboard module of the storefront:
    [SecurityUtils] (input sanitization and attack detection),
    [RateLimiter] (failed-login counter with lockout) and the handlers of
    the [AdminDashboard] component ([onAuthStateChanged] callback,
    [handleLogin], [handleSubmit]).

    Modelling conventions.
    - A JavaScript string is the list of its code units.  Code units are
      8-bit ([ascii]), i.e. the Latin-1 range; on that range the character
      classes of the regular expressions ([\w], [\s], [.]), [trim] and
      [toLowerCase] are modelled exactly.
    - Regular expression literals are values of the type [regex]; they are
      run by a backtracking matcher that lists the possible end positions
      in the priority order of the JavaScript matcher, so that the head of
      the list is the match JavaScript reports.
    - [Date.now()] is an explicit argument [now] (milliseconds, [Z]).
    - The outcome of every awaited external call (credential provider,
      ownership verifier) is an explicit argument of the handler. *)

From Stdlib Require Import Ascii String QArith.
From stdpp Require Import gmap strings list fin_maps.

Local Open Scope list_scope.
Local Open Scope bool_scope.

(** ** JavaScript strings *)

Module Text.

(** The code units of a string literal. *)
Definition txt (s : string) : list ascii := list_ascii_of_string s.

Definition code (c : ascii) : N := N_of_ascii c.

Definition in_range (lo hi : N) (c : ascii) : bool :=
  (lo <=? code c)%N && (code c <=? hi)%N.

Definition is_char (a : ascii) (c : ascii) : bool := Ascii.eqb c a.

(** [0-9] *)
Definition is_digit (c : ascii) : bool := in_range 48 57 c.

Definition is_upper (c : ascii) : bool := in_range 65 90 c.
Definition is_lower (c : ascii) : bool := in_range 97 122 c.

(** [\w], that is [A-Za-z0-9_]. *)
Definition is_word (c : ascii) : bool :=
  is_upper c || is_lower c || is_digit c || is_char "_" c.

(** White space and line terminators below U+0100: TAB, LF, VT, FF, CR,
    SP and NBSP.  This is the class [\s] and the set removed by [trim]. *)
Definition is_space (c : ascii) : bool :=
  in_range 9 13 c || (code c =? 32)%N || (code c =? 160)%N.

(** Line terminators below U+0100: the characters [.] does not match. *)
Definition is_line_terminator (c : ascii) : bool :=
  (code c =? 10)%N || (code c =? 13)%N.

(** Canonicalisation of the [i] flag (no [u] flag): code units are
    compared through their upper-case form, and a non-ASCII code unit is
    never identified with an ASCII one.  The patterns of this module hold
    ASCII characters only, so folding [a-z] decides every comparison. *)
Definition canonicalize (c : ascii) : ascii :=
  if is_lower c then ascii_of_N (code c - 32) else c.

Definition eq_ci (a : ascii) (c : ascii) : bool :=
  Ascii.eqb (canonicalize c) (canonicalize a).

(** [toLowerCase] on Latin-1: [A-Z] and U+00C0..U+00DE except U+00D7. *)
Definition lower_char (c : ascii) : ascii :=
  if is_upper c || (in_range 192 222 c && negb (code c =? 215)%N)
  then ascii_of_N (code c + 32) else c.

Definition toLowerCase (s : list ascii) : list ascii := map lower_char s.

Fixpoint drop_while (f : ascii -> bool) (s : list ascii) : list ascii :=
  match s with
  | [] => []
  | c :: t => if f c then drop_while f t else s
  end.

Fixpoint take_while (f : ascii -> bool) (s : list ascii) : list ascii :=
  match s with
  | [] => []
  | c :: t => if f c then c :: take_while f t else []
  end.

(** [trimStart] drops the white space in front, [trimEnd] the white space
    at the end. *)
Definition trimStart (s : list ascii) : list ascii := drop_while is_space s.

Fixpoint trimEnd (s : list ascii) : list ascii :=
  match s with
  | [] => []
  | c :: t =>
      match trimEnd t with
      | [] => if is_space c then [] else [c]
      | t' => c :: t'
      end
  end.

(** [String.prototype.trim] *)
Definition trim (s : list ascii) : list ascii := trimEnd (trimStart s).

(** [s.slice(0, n)] *)
Definition slice0 (n : nat) (s : list ascii) : list ascii := take n s.

(** [s.split(sep)] for a one-character separator; the result is never
    empty: [''.split('.')] is [['']]. *)
Fixpoint split (sep : ascii) (s : list ascii) : list (list ascii) :=
  match s with
  | [] => [[]]
  | c :: t =>
      if Ascii.eqb c sep then [] :: split sep t
      else match split sep t with
           | p :: ps => (c :: p) :: ps
           | [] => [[c]]
           end
  end.

(** [parts.join('')] *)
Definition join (parts : list (list ascii)) : list ascii := concat parts.

(** Does [pat] occur at the start of [s], letter case ignored? *)
Fixpoint prefix_ci (pat s : list ascii) : bool :=
  match pat, s with
  | [], _ => true
  | _ :: _, [] => false
  | a :: pat', c :: s' => eq_ci a c && prefix_ci pat' s'
  end.

(** Is [s] the text [pat], letter case ignored? *)
Fixpoint same_ci (pat s : list ascii) : bool :=
  match pat, s with
  | [], [] => true
  | a :: pat', c :: s' => eq_ci a c && same_ci pat' s'
  | _, _ => false
  end.

(** Does [pat] occur somewhere in [s], letter case ignored? *)
Fixpoint occurs_ci (pat s : list ascii) : bool :=
  prefix_ci pat s ||
  match s with
  | [] => false
  | _ :: t => occurs_ci pat t
  end.

Definition starts_with_space (s : list ascii) : bool :=
  match s with
  | c :: _ => is_space c
  | [] => false
  end.

Definition ends_with_space (s : list ascii) : bool :=
  match last s with
  | Some c => is_space c
  | None => false
  end.

End Text.

(** ** Regular expressions *)

Module Regex.
Import Text.

Inductive regex : Type :=
| Eps                                (* the empty pattern *)
| Class (f : ascii -> bool)          (* one code unit of a class *)
| Seq (r1 r2 : regex)                (* r1 r2 *)
| Alt (r1 r2 : regex)                (* r1|r2 *)
| Star (r : regex)                   (* r*, greedy *)
| NotAhead (r : regex)               (* (?!r) *)
| WordBoundary                       (* \b *)
| Bol                                (* ^ without the m flag *)
| Eol.                               (* $ without the m flag *)

(** A position in the subject: the code unit before it ([None] at the
    start of the input) and the code units after it. *)
Definition pos : Type := option ascii * list ascii.

Definition word_before (p : pos) : bool :=
  match fst p with Some c => is_word c | None => false end.
Definition word_after (p : pos) : bool :=
  match snd p with c :: _ => is_word c | [] => false end.

(** Greedy iteration.  An iteration that consumes nothing is rejected,
    as in JavaScript, so [length (snd p)] iterations are enough. *)
Fixpoint star (step : pos -> list pos) (fuel : nat) (p : pos) : list pos :=
  match fuel with
  | 0 => [p]
  | S fuel' =>
      flat_map
        (fun q => if length (snd q) <? length (snd p)
                  then star step fuel' q else [])
        (step p)
      ++ [p]
  end.

(** All the positions at which a match of [r] starting at [p] can end,
    most preferred first. *)
Fixpoint run (r : regex) (p : pos) : list pos :=
  match r with
  | Eps => [p]
  | Class f =>
      match snd p with
      | c :: t => if f c then [(Some c, t)] else []
      | [] => []
      end
  | Seq r1 r2 => flat_map (run r2) (run r1 p)
  | Alt r1 r2 => run r1 p ++ run r2 p
  | Star r1 => star (run r1) (length (snd p)) p
  | NotAhead r1 => match run r1 p with [] => [p] | _ :: _ => [] end
  | WordBoundary => if xorb (word_before p) (word_after p) then [p] else []
  | Bol => match fst p with None => [p] | Some _ => [] end
  | Eol => match snd p with [] => [p] | _ :: _ => [] end
  end.

(** The literal [pat] followed by [k]; [lit_ci] is the same under the
    [i] flag. *)
Definition lit (pat : string) (k : regex) : regex :=
  fold_right (fun a r => Seq (Class (is_char a)) r) k (txt pat).
Definition lit_ci (pat : string) (k : regex) : regex :=
  fold_right (fun a r => Seq (Class (eq_ci a)) r) k (txt pat).

(** [r+] and [r?] *)
Definition Plus (r : regex) : regex := Seq r (Star r).
Definition Opt (r : regex) : regex := Alt r Eps.

(** [.] *)
Definition Dot : regex := Class (fun c => negb (is_line_terminator c)).

(** The search of [RegExp.prototype.test] and of [String.prototype.match]
    without the [g] flag: is there a match starting at some position? *)
Fixpoint test_from (r : regex) (prev : option ascii) (s : list ascii) : bool :=
  match run r (prev, s) with
  | _ :: _ => true
  | [] =>
      match s with
      | [] => false
      | c :: t => test_from r (Some c) t
      end
  end.

Definition test (r : regex) (s : list ascii) : bool := test_from r None s.

(** [s.replace(r, '')] for a regular expression with the [g] flag: the
    matches are found from left to right, each search resuming where the
    previous match ended, and are deleted.  [skip] counts the code units
    of the current match that are still to be dropped. *)
Fixpoint remove_from (r : regex) (prev : option ascii) (skip : nat)
    (s : list ascii) : list ascii :=
  match s with
  | [] => []
  | c :: t =>
      match skip with
      | S k => remove_from r (Some c) k t
      | 0 =>
          match run r (prev, s) with
          | q :: _ =>
              match length s - length (snd q) with
              | S k => remove_from r (Some c) k t
              | 0 => c :: remove_from r (Some c) 0 t
              end
          | [] => c :: remove_from r (Some c) 0 t
          end
      end
  end.

Definition remove_all (r : regex) (s : list ascii) : list ascii :=
  remove_from r None 0 s.

End Regex.

(** ** SecurityUtils *)

Module SecurityUtils.
Import Text Regex.

(** An argument of a sanitizer.  A value that is not a string is
    described by the two observations the sanitizers make of it: its
    truthiness and its [String(...)] rendering. *)
Inductive jsval : Type :=
| JStr (s : list ascii)
| JOther (truthy : bool) (rendering : list ascii).

(** [!input] is false *)
Definition truthy (v : jsval) : bool :=
  match v with
  | JStr [] => false
  | JStr (_ :: _) => true
  | JOther b _ => b
  end.

(** [String(input)] *)
Definition toString (v : jsval) : list ascii :=
  match v with
  | JStr s => s
  | JOther _ s => s
  end.

(** The guard [!input || typeof input !== 'string'] fails exactly on a
    non-empty string. *)
Definition as_text (v : jsval) : option (list ascii) :=
  match v with
  | JStr (c :: t) => Some (c :: t)
  | _ => None
  end.

(** [/[<>]/g] *)
Definition re_angle : regex :=
  Class (fun c => is_char "<" c || is_char ">" c).
(** [/javascript:/gi] *)
Definition re_javascript : regex := lit_ci "javascript:" Eps.
(** [/on\w+=/gi] *)
Definition re_handler : regex :=
  lit_ci "on" (Seq (Plus (Class is_word)) (lit "=" Eps)).
(** [/data:/gi] *)
Definition re_data : regex := lit_ci "data:" Eps.
(** The class of the pattern that strips the characters [<], [>],
    double quote, single quote, backquote, [;] and backslash (flag [g]). *)
Definition double_quote : ascii := ascii_of_nat 34.
Definition backslash : ascii := ascii_of_nat 92.
Definition is_dangerous (c : ascii) : bool :=
  is_char "<" c || is_char ">" c || is_char double_quote c || is_char "'" c
  || is_char "`" c || is_char ";" c || is_char backslash c.
Definition re_dangerous : regex := Class is_dangerous.

Definition not_lt (c : ascii) : bool := negb (is_char "<" c).

(** The block pattern of [sanitizeDescription], flags [gi]; for the tag
    [script] it reads, piece by piece:
      [<script\b]  [[^<]*]  [(?: (?!<\/script>) < [^<]* )*]  [<\/script>]
    and the same with [iframe]. *)
Definition re_block (tag : string) : regex :=
  let closing := lit_ci ("</" +:+ tag +:+ ">") Eps in
  lit_ci ("<" +:+ tag)
    (Seq WordBoundary
      (Seq (Star (Class not_lt))
        (Seq (Star (Seq (NotAhead closing)
                     (Seq (Class (is_char "<")) (Star (Class not_lt)))))
             closing))).
Definition re_script : regex := re_block "script".
Definition re_iframe : regex := re_block "iframe".
(** [/data:text\/html/gi] *)
Definition re_data_html : regex := lit_ci "data:text/html" Eps.

Definition sanitizeText (input : jsval) : list ascii :=
  match as_text input with
  | None => []
  | Some s =>
      slice0 1000
        (trim
          (remove_all re_data
            (remove_all re_handler
              (remove_all re_javascript
                (remove_all re_angle s)))))
  end.

Definition sanitizeName (input : jsval) : list ascii :=
  match as_text input with
  | None => []
  | Some s =>
      slice0 200
        (trim
          (remove_all re_handler
            (remove_all re_javascript
              (remove_all re_dangerous s))))
  end.

(** The passes of [sanitizeDescription] that follow the removal of the
    script blocks. *)
Definition descriptionRest (s : list ascii) : list ascii :=
  slice0 5000
    (trim
      (remove_all re_data_html
        (remove_all re_handler
          (remove_all re_javascript
            (remove_all re_iframe s))))).

Definition sanitizeDescription (input : jsval) : list ascii :=
  match as_text input with
  | None => []
  | Some s => descriptionRest (remove_all re_script s)
  end.

(** [/[^0-9.]/g] *)
Definition is_price_char (c : ascii) : bool := is_digit c || is_char "." c.
Definition re_not_price : regex := Class (fun c => negb (is_price_char c)).

Definition sanitizePrice (input : jsval) : list ascii :=
  if negb (truthy input) then []
  else
    let cleaned := remove_all re_not_price (toString input) in
    let parts := split "." cleaned in
    if 2 <? length parts
    then hd [] parts ++ txt "." ++ join (tl parts)
    else slice0 10 cleaned.

(** [/^https?:\/\//i] *)
Definition re_http : regex :=
  Seq Bol (lit_ci "http" (Seq (Opt (Class (eq_ci "s"))) (lit "://" Eps))).
(** [/^(javascript|data|vbscript):/i] *)
Definition re_bad_scheme : regex :=
  Seq Bol
    (Seq (Alt (lit_ci "javascript" Eps)
           (Alt (lit_ci "data" Eps) (lit_ci "vbscript" Eps)))
         (lit ":" Eps)).

Definition sanitizeUrl (input : jsval) : list ascii :=
  match as_text input with
  | None => []
  | Some s =>
      let trimmed := trim s in
      if (match trimmed with [] => false | _ :: _ => true end)
         && negb (test re_http trimmed)
      then []
      else if test re_bad_scheme trimmed then []
      else slice0 2000 trimmed
  end.

Definition sanitizeEmail (input : jsval) : list ascii :=
  match as_text input with
  | None => []
  | Some s => slice0 254 (trim (remove_all re_dangerous (toLowerCase s)))
  end.

Definition sanitizeCategory (input : jsval) : list ascii :=
  match as_text input with
  | None => []
  | Some s => slice0 100 (trim (remove_all re_dangerous s))
  end.

(** The eleven patterns of [detectAttack], in the order of the source. *)
Definition ws : regex := Class is_space.
Definition attackPatterns : list regex :=
  [ lit_ci "<script" Eps;                                   (* /<script/i *)
    lit_ci "javascript:" Eps;                               (* /javascript:/i *)
    lit_ci "on" (Seq (Plus (Class is_word))
                  (Seq (Star ws) (lit "=" Eps)));           (* /on\w+\s*=/i *)
    lit_ci "union" (Seq (Plus ws) (lit_ci "select" Eps));   (* /union\s+select/i *)
    lit ";" (Seq (Star ws)
              (lit_ci "drop" (Seq (Plus ws) (lit_ci "table" Eps))));
                                                            (* /;\s*drop\s+table/i *)
    lit ";" (Seq (Star ws)
              (lit_ci "delete" (Seq (Plus ws) (lit_ci "from" Eps))));
                                                            (* /;\s*delete\s+from/i *)
    lit "'" (Seq (Star ws) (lit_ci "or" (Seq (Plus ws)
      (lit "'1'" (Seq (Star ws) (lit "=" (Seq (Star ws) (lit "'1" Eps))))))));
                                                            (* /'\s*or\s+'1'\s*=\s*'1/i *)
    lit "--" (Seq (Star ws) Eol);                           (* /--\s*$/ *)
    lit "/*" (Seq (Star Dot) (lit "*/" Eps));               (* /\/\*.*\*\// *)
    lit "${" (Seq (Star Dot) (lit "}" Eps));                (* /\$\{.*\}/ *)
    lit "{{" (Seq (Star Dot) (lit "}}" Eps)) ].             (* /\{\{.*\}\}/ *)

Definition detectAttack (input : jsval) : bool :=
  match as_text input with
  | None => false
  | Some s => existsb (fun pattern => test pattern s) attackPatterns
  end.

End SecurityUtils.

(** ** RateLimiter *)

Module RateLimiter.

Local Open Scope Z_scope.

(** A record of the [attempts] table.  [lockedUntil] is absent until the
    record is locked. *)
Record AttemptRecord : Type := {
  count : Z;
  firstAttempt : Z;
  lockedUntil : option Z
}.

Definition maxAttempts : Z := 5.
Definition lockoutTime : Z := 15 * 60 * 1000.

(** The operations read and write the process-wide table
    [RateLimiter.attempts]; they are computations over that table.  The
    keys are the identifiers the dashboard builds, which all start with
    [login_]. *)
Definition M (A : Type) : Type :=
  gmap string AttemptRecord -> A * gmap string AttemptRecord.

#[global] Instance M_ret : MRet M := fun A a st => (a, st).
#[global] Instance M_bind : MBind M :=
  fun A B k m st => let (a, st') := m st in k a st'.

(** [RateLimiter.attempts[identifier]] *)
Definition read (identifier : string) : M (option AttemptRecord) :=
  fun st => (st !! identifier, st).
(** [RateLimiter.attempts[identifier] = record] *)
Definition write (identifier : string) (record : AttemptRecord) : M unit :=
  fun st => (tt, <[identifier := record]> st).
(** [delete RateLimiter.attempts[identifier]] *)
Definition remove (identifier : string) : M unit :=
  fun st => (tt, delete identifier st).
(** An assignment to a field of [RateLimiter.attempts[identifier]]. *)
Definition update (identifier : string) (f : AttemptRecord -> AttemptRecord)
  : M unit :=
  fun st => (tt, alter f identifier st).

(** [record.lockedUntil && test(record.lockedUntil)]: an absent field and
    the number 0 are falsy. *)
Definition locked_and (test : Z -> bool) (record : AttemptRecord) : bool :=
  match lockedUntil record with
  | Some t => negb (t =? 0) && test t
  | None => false
  end.

Definition canAttempt (identifier : string) (now : Z) : M bool :=
  record ← read identifier;
  match record with
  | None => mret true
  | Some record =>
      if locked_and (fun t => now <? t) record then mret false
      else if locked_and (fun t => t <=? now) record then
        remove identifier;; mret true
      else mret (count record <? maxAttempts)
  end.

Definition recordAttempt (identifier : string) (success : bool) (now : Z)
  : M unit :=
  if success then remove identifier
  else
    existing ← read identifier;
    match existing with
    | None =>
        write identifier
          {| count := 0; firstAttempt := now; lockedUntil := None |}
    | Some _ => mret tt
    end;;
    update identifier
      (fun r => {| count := count r + 1; firstAttempt := firstAttempt r;
                   lockedUntil := lockedUntil r |});;
    current ← read identifier;
    match current with
    | Some r =>
        if maxAttempts <=? count r then
          update identifier
            (fun r => {| count := count r; firstAttempt := firstAttempt r;
                         lockedUntil := Some (now + lockoutTime) |})
        else mret tt
    | None => mret tt
    end.

(** [Math.ceil(remaining / 1000 / 60)] for a positive number of
    milliseconds. *)
Definition ceil_minutes (remaining : Z) : Z := (remaining + 59999) / 60000.

Definition getRemainingTime (identifier : string) (now : Z) : M Z :=
  record ← read identifier;
  match record with
  | Some r =>
      match lockedUntil r with
      | Some t =>
          if t =? 0 then mret 0
          else
            let remaining := t - now in
            if 0 <? remaining then mret (ceil_minutes remaining) else mret 0
      | None => mret 0
      end
  | None => mret 0
  end.

Definition getAttemptsLeft (identifier : string) : M Z :=
  record ← read identifier;
  match record with
  | None => mret maxAttempts
  | Some r => mret (Z.max 0 (maxAttempts - count r))
  end.

(** The tables the running dashboard can hold: the table starts empty and
    is changed by [canAttempt] and [recordAttempt] only, at clock readings
    that are not before the epoch. *)
Inductive reachable : gmap string AttemptRecord -> Prop :=
| reachable_init : reachable ∅
| reachable_canAttempt identifier now st :
    0 <= now -> reachable st ->
    reachable (snd (canAttempt identifier now st))
| reachable_recordAttempt identifier success now st :
    0 <= now -> reachable st ->
    reachable (snd (recordAttempt identifier success now st)).

End RateLimiter.


(** ** AdminDashboard *)

Module AdminDashboard.
Import Text Regex SecurityUtils RateLimiter.

(** [authMode] *)
Inductive AuthMode : Type :=
| Loading | Error | Login | NotOwner | Authenticated.

(** The user handle of the credential provider; only [uid] is read. *)
Record User : Type := { uid : string }.

(** The values given to [authError], named after the text they show:
    - [NoMessage]: the empty string;
    - [InitFailed]: Failed to initialize authentication. Please refresh the page.
    - [LockedOut m]: Too many failed attempts. Please try again in m minutes.
    - [InvalidInput]: Invalid input detected.
    - [InvalidCredentials n]: Invalid email or password. n attempts remaining.
    - [InvalidEmailFormat]: Invalid email format
    - [TooManyRequests]: Too many failed attempts. Please try again later.
    - [LoginFailed]: Login failed. Please try again. *)
Inductive AuthMessage : Type :=
| NoMessage
| InitFailed
| LockedOut (minutes : Z)
| InvalidInput
| InvalidCredentials (attemptsLeft : Z)
| InvalidEmailFormat
| TooManyRequests
| LoginFailed.

(** The calls made to the external collaborators, in order. *)
Inductive Call : Type :=
| VerifyProjectOwner (userId projectId : string)
| SignInWithEmailAndPassword (email password : list ascii)
| CheckStripeConnect.

(** The state the handlers read and write: the component state set through
    the React setters, the rate limiter table, [localStorage] and the log
    of the external calls. *)
Record Dashboard : Type := {
  authMode : AuthMode;
  user : option User;
  isOwner : bool;
  authError : AuthMessage;
  isLocked : bool;
  lockoutMinutes : Z;
  attempts : gmap string AttemptRecord;
  localStorage : gmap string string;
  calls : list Call
}.

Definition setAuthMode (m : AuthMode) (d : Dashboard) : Dashboard :=
  {| authMode := m; user := user d; isOwner := isOwner d;
     authError := authError d; isLocked := isLocked d;
     lockoutMinutes := lockoutMinutes d; attempts := attempts d;
     localStorage := localStorage d; calls := calls d |}.
Definition setUser (u : option User) (d : Dashboard) : Dashboard :=
  {| authMode := authMode d; user := u; isOwner := isOwner d;
     authError := authError d; isLocked := isLocked d;
     lockoutMinutes := lockoutMinutes d; attempts := attempts d;
     localStorage := localStorage d; calls := calls d |}.
Definition setIsOwner (b : bool) (d : Dashboard) : Dashboard :=
  {| authMode := authMode d; user := user d; isOwner := b;
     authError := authError d; isLocked := isLocked d;
     lockoutMinutes := lockoutMinutes d; attempts := attempts d;
     localStorage := localStorage d; calls := calls d |}.
Definition setAuthError (m : AuthMessage) (d : Dashboard) : Dashboard :=
  {| authMode := authMode d; user := user d; isOwner := isOwner d;
     authError := m; isLocked := isLocked d;
     lockoutMinutes := lockoutMinutes d; attempts := attempts d;
     localStorage := localStorage d; calls := calls d |}.
Definition setIsLocked (b : bool) (d : Dashboard) : Dashboard :=
  {| authMode := authMode d; user := user d; isOwner := isOwner d;
     authError := authError d; isLocked := b;
     lockoutMinutes := lockoutMinutes d; attempts := attempts d;
     localStorage := localStorage d; calls := calls d |}.
Definition setLockoutMinutes (m : Z) (d : Dashboard) : Dashboard :=
  {| authMode := authMode d; user := user d; isOwner := isOwner d;
     authError := authError d; isLocked := isLocked d;
     lockoutMinutes := m; attempts := attempts d;
     localStorage := localStorage d; calls := calls d |}.
Definition setAttempts (a : gmap string AttemptRecord) (d : Dashboard)
  : Dashboard :=
  {| authMode := authMode d; user := user d; isOwner := isOwner d;
     authError := authError d; isLocked := isLocked d;
     lockoutMinutes := lockoutMinutes d; attempts := a;
     localStorage := localStorage d; calls := calls d |}.
(** [localStorage.setItem(key, value)] *)
Definition setItem (key value : string) (d : Dashboard) : Dashboard :=
  {| authMode := authMode d; user := user d; isOwner := isOwner d;
     authError := authError d; isLocked := isLocked d;
     lockoutMinutes := lockoutMinutes d; attempts := attempts d;
     localStorage := <[key := value]> (localStorage d); calls := calls d |}.
Definition call (c : Call) (d : Dashboard) : Dashboard :=
  {| authMode := authMode d; user := user d; isOwner := isOwner d;
     authError := authError d; isLocked := isLocked d;
     lockoutMinutes := lockoutMinutes d; attempts := attempts d;
     localStorage := localStorage d; calls := calls d ++ [c] |}.

(** A rate limiter operation run on the table of the dashboard. *)
Definition limiter {A} (m : M A) (d : Dashboard) : A * Dashboard :=
  let (a, st) := m (attempts d) in (a, setAttempts st d).

(** The state of a freshly mounted dashboard. *)
Definition initial : Dashboard :=
  {| authMode := Loading; user := None; isOwner := false;
     authError := NoMessage; isLocked := false; lockoutMinutes := 0;
     attempts := ∅; localStorage := ∅; calls := [] |}.

(** *** The ownership check of the auth-state callback *)

(** A parsed JSON document. *)
#[local] Set Warnings "-register-all".
Inductive json : Type :=
| JsNull
| JsBool (b : bool)
| JsNumber (q : Q)
| JsString (s : string)
| JsArray (items : list json)
| JsObject (fields : list (string * json)).

(** The property of an object; when a key is repeated the last one wins. *)
Fixpoint field (key : string) (fields : list (string * json)) : option json :=
  match fields with
  | [] => None
  | (k, v) :: rest =>
      match field key rest with
      | Some v' => Some v'
      | None => if String.eqb k key then Some v else None
      end
  end.

(** What the awaited verifier call gives: either [fetch] or
    [response.json()] rejects (network or parse error), or a document. *)
Inductive VerifierOutcome : Type :=
| VerifierFails
| VerifierResponds (data : json).

(** [data.isOwner]: reading a property of [null] throws; a document other
    than an object has no such property. *)
Inductive PropertyRead : Type :=
| Throws
| Undefined
| Value (v : json).

Definition read_isOwner (data : json) : PropertyRead :=
  match data with
  | JsNull => Throws
  | JsObject fields =>
      match field "isOwner" fields with
      | Some v => Value v
      | None => Undefined
      end
  | _ => Undefined
  end.

(** [data.isOwner === true] *)
Definition is_true (p : PropertyRead) : bool :=
  match p with
  | Value (JsBool true) => true
  | _ => false
  end.

(** The [catch] block of the callback. *)
Definition ownerCheckFailed (firebaseUser : User) (d : Dashboard) : Dashboard :=
  call CheckStripeConnect
    (setItem "userId" (uid firebaseUser)
      (setAuthMode Authenticated (setIsOwner true d))).

(** The callback registered with [auth.onAuthStateChanged]. *)
Definition onAuthStateChanged (projectId : string)
    (firebaseUser : option User) (outcome : VerifierOutcome)
    (d : Dashboard) : Dashboard :=
  match firebaseUser with
  | Some firebaseUser =>
      let d := setUser (Some firebaseUser) d in
      let d := call (VerifyProjectOwner (uid firebaseUser) projectId) d in
      match outcome with
      | VerifierFails => ownerCheckFailed firebaseUser d
      | VerifierResponds data =>
          match read_isOwner data with
          | Throws => ownerCheckFailed firebaseUser d
          | p =>
              if is_true p then
                call CheckStripeConnect
                  (setItem "projectId" projectId
                    (setItem "userId" (uid firebaseUser)
                      (setAuthMode Authenticated (setIsOwner true d))))
              else setAuthMode NotOwner (setIsOwner false d)
          end
      end
  | None => setAuthMode Login (setIsOwner false (setUser None d))
  end.

(** *** handleLogin *)

(** What the awaited sign-in gives: success, or an error with its code. *)
Inductive SignInOutcome : Type :=
| SignInOk
| SignInError (code : string).

(** ['login_' + (projectId || 'default')] *)
Definition identifier (projectId : string) : string :=
  "login_" +:+ (if String.eqb projectId "" then "default" else projectId).

Definition is_credential_code (code : string) : bool :=
  String.eqb code "auth/user-not-found"
  || String.eqb code "auth/wrong-password"
  || String.eqb code "auth/invalid-credential".

(** [now1] and [now2] are the two clock readings of a run: the one of
    [canAttempt] and the one of the rate limiter call that follows it. *)
Definition handleLogin (projectId : string) (email password : list ascii)
    (outcome : SignInOutcome) (now1 now2 : Z) (d : Dashboard) : Dashboard :=
  let d := setAuthError NoMessage d in
  let identifier := identifier projectId in
  let (allowed, d) := limiter (canAttempt identifier now1) d in
  if negb allowed then
    let (minutes, d) := limiter (getRemainingTime identifier now2) d in
    setAuthError (LockedOut minutes)
      (setLockoutMinutes minutes (setIsLocked true d))
  else
    let sanitizedEmail := sanitizeEmail (JStr email) in
    if detectAttack (JStr email) || detectAttack (JStr password) then
      let (_, d) := limiter (recordAttempt identifier false now2) d in
      setAuthError InvalidInput d
    else
      let d := call (SignInWithEmailAndPassword sanitizedEmail password) d in
      match outcome with
      | SignInOk => snd (limiter (recordAttempt identifier true now2) d)
      | SignInError code =>
          let (_, d) := limiter (recordAttempt identifier false now2) d in
          let (attemptsLeft, d) := limiter (getAttemptsLeft identifier) d in
          let d :=
            if is_credential_code code
            then setAuthError (InvalidCredentials attemptsLeft) d
            else if String.eqb code "auth/invalid-email"
            then setAuthError InvalidEmailFormat d
            else if String.eqb code "auth/too-many-requests"
            then setLockoutMinutes 15
                   (setIsLocked true (setAuthError TooManyRequests d))
            else setAuthError LoginFailed d in
          if (attemptsLeft =? 0)%Z
          then setLockoutMinutes 15 (setIsLocked true d)
          else d
      end.

(** *** handleSubmit *)

(** The [form] state.  A draft may leave fields out; such a field is the
    value [undefined]. *)
Record ProductForm : Type := {
  name : jsval;
  description : jsval;
  price : jsval;
  image : jsval;
  category : jsval;
  inStock : jsval;
  driveFileId : jsval;
  externalPaymentUrl : jsval
}.

Definition undefined : jsval := JOther false (txt "undefined").

(** [sanitizedData] *)
Record Product : Type := {
  p_name : list ascii;
  p_description : list ascii;
  p_price : Q;
  p_image : jsval;
  p_category : list ascii;
  p_inStock : bool;
  p_driveFileId : option jsval;        (* [None] is [null] *)
  p_externalPaymentUrl : list ascii
}.

(** The decimal value of a string of digits. *)
Definition digit_value (c : ascii) : Z := Z.of_N (code c) - 48.
Definition digits_value (s : list ascii) : Z :=
  fold_left (fun acc c => 10 * acc + digit_value c)%Z s 0%Z.

(** The number written with the digits [int_part] before the dot and
    [frac_part] after it; [None], for [NaN], when there is no digit at
    all.  A number is its exact decimal value. *)
Definition decimal (int_part frac_part : list ascii) : option Q :=
  match int_part ++ frac_part with
  | [] => None
  | digits =>
      Some (Qmake (digits_value digits)
                  (Z.to_pos (10 ^ Z.of_nat (length frac_part))))
  end.

(** [parseFloat] on the strings [sanitizePrice] returns, which hold digits
    and dots only: the longest prefix that reads as a decimal literal. *)
Definition parseFloat (s : list ascii) : option Q :=
  let int_part := take_while is_digit s in
  match drop_while is_digit s with
  | c :: rest =>
      if is_char "." c
      then decimal int_part (take_while is_digit rest)
      else decimal int_part []
  | [] => decimal int_part []
  end.

(** [x || 0] for a number [x]: [NaN] and [0] give [0]. *)
Definition or_zero (x : option Q) : Q :=
  match x with
  | Some q => if Qeq_bool q 0 then 0%Q else q
  | None => 0%Q
  end.

(** The reasons for which [handleSubmit] refuses a draft, named after the
    text given to [formError]:
    - [InvalidCharacters]: Invalid characters detected. Please remove special
      characters and try again.
    - [NameRequired]: Product name is required
    - [InvalidPrice]: Please enter a valid price
    - [InvalidPaymentUrl]: Invalid payment URL. Must start with http:// or https:// *)
Inductive Rejection : Type :=
| InvalidCharacters
| NameRequired
| InvalidPrice
| InvalidPaymentUrl.

(** What a submission does: it sets [formError] and stops, or hands the
    sanitized record to [updateProduct] (when [editing] holds a product
    id) or to [addProduct]. *)
Inductive Submission : Type :=
| Rejected (reason : Rejection)
| Updated (id : string) (record : Product)
| Added (record : Product).

Definition handleSubmit (editing : option string) (form : ProductForm)
  : Submission :=
  let sanitizedData :=
    {| p_name := sanitizeName (name form);
       p_description := sanitizeDescription (description form);
       p_price := or_zero (parseFloat (sanitizePrice (price form)));
       p_image := image form;
       p_category := sanitizeCategory (category form);
       p_inStock := truthy (inStock form);
       p_driveFileId :=
         if truthy (driveFileId form) then Some (driveFileId form) else None;
       p_externalPaymentUrl := sanitizeUrl (externalPaymentUrl form) |} in
  if detectAttack (name form) || detectAttack (description form)
     || detectAttack (category form)
  then Rejected InvalidCharacters
  else if (length (p_name sanitizedData) <? 1)%nat
  then Rejected NameRequired
  else if Qle_bool (p_price sanitizedData) 0
  then Rejected InvalidPrice
  else if truthy (externalPaymentUrl form)
          && (length (p_externalPaymentUrl sanitizedData) =? 0)%nat
  then Rejected InvalidPaymentUrl
  else match editing with
       | Some id => Updated id sanitizedData
       | None => Added sanitizedData
       end.

End AdminDashboard.


(** ** AdminDashboard: the other handlers of the session *)

Module Session.
Import Text Regex SecurityUtils RateLimiter AdminDashboard.

(** [initAuth], up to the subscription: when [loadFirebase] answers
    [false] the session shows the error screen and nothing is subscribed;
    otherwise the auth-state callback is registered and the state is left
    as it is. *)
Definition initAuth (loaded : bool) (d : Dashboard) : Dashboard :=
  if loaded then d
  else setAuthError InitFailed (setAuthMode Error d).

(** [checkLockout], run on mount and every ten seconds.  [now1] and
    [now2] are the clock readings of [canAttempt] and of
    [getRemainingTime]. *)
Definition checkLockout (projectId : string) (now1 now2 : Z)
    (d : Dashboard) : Dashboard :=
  let identifier := identifier projectId in
  let (allowed, d) := limiter (canAttempt identifier now1) d in
  if negb allowed then
    let (minutes, d) := limiter (getRemainingTime identifier now2) d in
    setLockoutMinutes minutes (setIsLocked true d)
  else d.

(** [localStorage.removeItem(key)] *)
Definition removeItem (key : string) (d : Dashboard) : Dashboard :=
  {| authMode := authMode d; user := user d; isOwner := isOwner d;
     authError := authError d; isLocked := isLocked d;
     lockoutMinutes := lockoutMinutes d; attempts := attempts d;
     localStorage := delete key (localStorage d); calls := calls d |}.

(** What the awaited [auth.signOut()] gives. *)
Inductive SignOutOutcome : Type :=
| SignOutOk
| SignOutFails.

(** [handleLogout]: the two keys are removed once the sign-out went
    through; when it throws, the error is logged and nothing else is
    done.  The state of the session changes later, when the provider
    calls the auth-state callback with no user. *)
Definition handleLogout (outcome : SignOutOutcome) (d : Dashboard)
  : Dashboard :=
  match outcome with
  | SignOutOk => removeItem "projectId" (removeItem "userId" d)
  | SignOutFails => d
  end.

(** The events of a session, each with the outcomes of the calls it
    awaits and the clock readings it takes: a handler run from its first
    line to its last, with no other handler in between. *)
Inductive Event : Type :=
| AuthStateChanged (firebaseUser : option User) (outcome : VerifierOutcome)
| LoginSubmitted (email password : list ascii) (outcome : SignInOutcome)
    (now1 now2 : Z)
| LogoutClicked (outcome : SignOutOutcome)
| LockoutChecked (now1 now2 : Z).

Definition handle (projectId : string) (e : Event) (d : Dashboard)
  : Dashboard :=
  match e with
  | AuthStateChanged firebaseUser outcome =>
      onAuthStateChanged projectId firebaseUser outcome d
  | LoginSubmitted email password outcome now1 now2 =>
      handleLogin projectId email password outcome now1 now2 d
  | LogoutClicked outcome => handleLogout outcome d
  | LockoutChecked now1 now2 => checkLockout projectId now1 now2 d
  end.

(** *** The handlers, await by await *)

(** [handle] runs a handler from its first line to its last.  A handler
    that awaits a call gives the control back while it waits, and another
    handler may run before it resumes.  What runs without interruption is
    a segment: a handler up to its [await], or from there to its end. *)

(** The auth-state callback up to [await fetch]: the user is set and the
    verifier is asked.  With no user the callback awaits nothing, and
    this is the whole of it. *)
Definition callbackStarts (projectId : string) (firebaseUser : option User)
    (d : Dashboard) : Dashboard :=
  match firebaseUser with
  | Some firebaseUser =>
      call (VerifyProjectOwner (uid firebaseUser) projectId)
        (setUser (Some firebaseUser) d)
  | None => setAuthMode Login (setIsOwner false (setUser None d))
  end.

(** The callback from the answer of the verifier to its end; nothing is
    written between [await fetch] and [await response.json()]. *)
Definition callbackResumes (projectId : string) (firebaseUser : User)
    (outcome : VerifierOutcome) (d : Dashboard) : Dashboard :=
  match outcome with
  | VerifierFails => ownerCheckFailed firebaseUser d
  | VerifierResponds data =>
      match read_isOwner data with
      | Throws => ownerCheckFailed firebaseUser d
      | p =>
          if is_true p then
            call CheckStripeConnect
              (setItem "projectId" projectId
                (setItem "userId" (uid firebaseUser)
                  (setAuthMode Authenticated (setIsOwner true d))))
          else setAuthMode NotOwner (setIsOwner false d)
      end
  end.

(** [handleLogin] up to [await auth.signInWithEmailAndPassword]; the
    boolean tells whether that call was made, that is whether the handler
    waits, or has returned. *)
Definition loginStarts (projectId : string) (email password : list ascii)
    (now1 now2 : Z) (d : Dashboard) : Dashboard * bool :=
  let d := setAuthError NoMessage d in
  let identifier := identifier projectId in
  let (allowed, d) := limiter (canAttempt identifier now1) d in
  if negb allowed then
    let (minutes, d) := limiter (getRemainingTime identifier now2) d in
    (setAuthError (LockedOut minutes)
       (setLockoutMinutes minutes (setIsLocked true d)), false)
  else
    let sanitizedEmail := sanitizeEmail (JStr email) in
    if detectAttack (JStr email) || detectAttack (JStr password) then
      let (_, d) := limiter (recordAttempt identifier false now2) d in
      (setAuthError InvalidInput d, false)
    else (call (SignInWithEmailAndPassword sanitizedEmail password) d, true).

(** [handleLogin] from the answer of the provider to its end. *)
Definition loginResumes (projectId : string) (outcome : SignInOutcome)
    (now : Z) (d : Dashboard) : Dashboard :=
  let identifier := identifier projectId in
  match outcome with
  | SignInOk => snd (limiter (recordAttempt identifier true now) d)
  | SignInError code =>
      let (_, d) := limiter (recordAttempt identifier false now) d in
      let (attemptsLeft, d) := limiter (getAttemptsLeft identifier) d in
      let d :=
        if is_credential_code code
        then setAuthError (InvalidCredentials attemptsLeft) d
        else if String.eqb code "auth/invalid-email"
        then setAuthError InvalidEmailFormat d
        else if String.eqb code "auth/too-many-requests"
        then setLockoutMinutes 15
               (setIsLocked true (setAuthError TooManyRequests d))
        else setAuthError LoginFailed d in
      if (attemptsLeft =? 0)%Z
      then setLockoutMinutes 15 (setIsLocked true d)
      else d
  end.

(** The segments of a session.  [handleLogout] writes nothing before its
    [await auth.signOut()], so that only its second half is a segment;
    [checkLockout] awaits nothing. *)
Inductive Segment : Type :=
| CallbackStarts (firebaseUser : option User)
| CallbackResumes (firebaseUser : User) (outcome : VerifierOutcome)
| LoginStarts (email password : list ascii) (now1 now2 : Z)
| LoginResumes (outcome : SignInOutcome) (now : Z)
| LogoutResumes (outcome : SignOutOutcome)
| LockoutCheck (now1 now2 : Z).

Definition run_segment (projectId : string) (segment : Segment)
    (d : Dashboard) : Dashboard :=
  match segment with
  | CallbackStarts firebaseUser => callbackStarts projectId firebaseUser d
  | CallbackResumes firebaseUser outcome =>
      callbackResumes projectId firebaseUser outcome d
  | LoginStarts email password now1 now2 =>
      fst (loginStarts projectId email password now1 now2 d)
  | LoginResumes outcome now => loginResumes projectId outcome now d
  | LogoutResumes outcome => handleLogout outcome d
  | LockoutCheck now1 now2 => checkLockout projectId now1 now2 d
  end.

(** The segments run one after the other.  No order is imposed on them:
    a handler may resume after any number of other segments, so that
    every interleaving of the handlers is one of these runs. *)
Definition run_segments (projectId : string) (segments : list Segment)
    (d : Dashboard) : Dashboard :=
  fold_left (fun d segment => run_segment projectId segment d) segments d.

(** A session: the mount, with the answer of [loadFirebase], followed by
    segments. *)
Definition run_session (projectId : string) (loaded : bool)
    (segments : list Segment) : Dashboard :=
  run_segments projectId segments (initAuth loaded initial).

End Session.

(** ** Stripe Connect status *)

Module StripeConnect.
Import AdminDashboard.

(** A JavaScript value held by the [stripeConnect] state: [undefined] or
    a JSON value. *)
Inductive value : Type :=
| VUndefined
| VJson (v : json).

(** Truthiness of a JSON value: [null], [false], [0] and the empty string
    are falsy. *)
Definition truthy_json (v : json) : bool :=
  match v with
  | JsNull => false
  | JsBool b => b
  | JsNumber q => negb (Qeq_bool q 0)
  | JsString s => negb (String.eqb s "")
  | JsArray _ | JsObject _ => true
  end.

Definition truthy_value (v : value) : bool :=
  match v with
  | VUndefined => false
  | VJson v => truthy_json v
  end.

(** [data.key] for a document other than [null] (on [null] the read
    throws). *)
Definition property (key : string) (data : json) : value :=
  match data with
  | JsObject fields =>
      match field key fields with
      | Some v => VJson v
      | None => VUndefined
      end
  | _ => VUndefined
  end.

(** [x || fallback] *)
Definition or_else (x : value) (fallback : json) : value :=
  if truthy_value x then x else VJson fallback.

(** The [stripeConnect] state and the requests posted to
    [/check-connect-status], each with the project id of its body. *)
Record Stripe : Type := {
  loading : bool;
  connected : value;
  chargesEnabled : value;
  accountId : value;
  requests : list string
}.

Definition initial : Stripe :=
  {| loading := true; connected := VJson (JsBool false);
     chargesEnabled := VJson (JsBool false); accountId := VJson JsNull;
     requests := [] |}.

(** What the awaited request gives: [fetch] or [response.json()] rejects,
    or a document. *)
Inductive Response : Type :=
| RequestFails
| Responds (data : json).

(** [setStripeConnect(prev => ({ ...prev, loading: false }))] *)
Definition stop_loading (s : Stripe) : Stripe :=
  {| loading := false; connected := connected s;
     chargesEnabled := chargesEnabled s; accountId := accountId s;
     requests := requests s |}.

Definition checkStripeConnect (projectId : string) (outcome : Response)
    (s : Stripe) : Stripe :=
  if String.eqb projectId "" then s
  else
    let s :=
      {| loading := loading s; connected := connected s;
         chargesEnabled := chargesEnabled s; accountId := accountId s;
         requests := requests s ++ [projectId] |} in
    match outcome with
    | RequestFails => stop_loading s
    | Responds JsNull => stop_loading s
    | Responds data =>
        if truthy_value (property "success" data) then
          {| loading := false;
             connected := property "hasAccount" data;
             chargesEnabled :=
               or_else (property "chargesEnabled" data) (JsBool false);
             accountId := or_else (property "accountId" data) JsNull;
             requests := requests s |}
        else stop_loading s
    end.

End StripeConnect.

(** ** ImageUploader: the checks of handleFileChange *)

Module ImageUploader.
Import Text.

(** What is read of the chosen [File]. *)
Record File : Type := {
  type : list ascii;
  name : list ascii;
  size : Z
}.

Definition allowedTypes : list (list ascii) :=
  [txt "image/jpeg"; txt "image/png"; txt "image/gif"; txt "image/webp"].

Definition validExtensions : list (list ascii) :=
  [txt "jpg"; txt "jpeg"; txt "png"; txt "gif"; txt "webp"].

(** [list.includes(x)] for strings *)
Definition includes (l : list (list ascii)) (x : list ascii) : bool :=
  existsb (fun y => bool_decide (y = x)) l.

(** [file.name.split('.').pop().toLowerCase()] *)
Definition extension (name : list ascii) : list ascii :=
  toLowerCase (default [] (last (split "." name))).

(** The refusals of [handleFileChange], named after the text given to
    [error]:
    - [WrongType]: Only JPEG, PNG, GIF, and WebP images are allowed
    - [InvalidExtension]: Invalid file extension
    - [TooLarge]: Image must be less than 5MB *)
Inductive Refusal : Type :=
| WrongType
| InvalidExtension
| TooLarge.

(** The checks made before the upload starts: [None] when no file was
    chosen (nothing happens), otherwise the refusal or the go-ahead. *)
Definition checkFile (file : option File) : option (Refusal + File) :=
  match file with
  | None => None
  | Some file =>
      if negb (includes allowedTypes (type file)) then Some (inl WrongType)
      else if negb (includes validExtensions (extension (name file)))
      then Some (inl InvalidExtension)
      else if (5 * 1024 * 1024 <? size file)%Z then Some (inl TooLarge)
      else Some (inr file)
  end.

End ImageUploader.


(** * Properties of the rate limiter *)

Section RateLimiterFacts.
Import RateLimiter.
Local Open Scope Z_scope.

Implicit Types (st : gmap string AttemptRecord) (id : string).

(** The record a failed attempt leaves behind, as a function of the record
    found. *)
Definition after_failure (now : Z) (found : option AttemptRecord)
  : AttemptRecord :=
  let c := match found with Some r => count r | None => 0 end + 1 in
  {| count := c;
     firstAttempt := match found with Some r => firstAttempt r | None => now end;
     lockedUntil :=
       if maxAttempts <=? c then Some (now + lockoutTime)
       else match found with Some r => lockedUntil r | None => None end |}.

Ltac run_limiter :=
  unfold canAttempt, recordAttempt, getRemainingTime, getAttemptsLeft,
    mbind, M_bind, mret, M_ret, read, write, remove, update; simpl.

Lemma alter_found (f : AttemptRecord -> AttemptRecord) st id r :
  st !! id = Some r -> alter f id st = <[id := f r]> st.
Proof.
  intros Hr. rewrite <- (insert_id st id r Hr) at 1.
  apply (alter_insert_eq st).
Qed.

Lemma recordAttempt_failure st id now :
  recordAttempt id false now st
  = (tt, <[id := after_failure now (st !! id)]> st).
Proof.
  run_limiter. unfold after_failure.
  destruct (st !! id) as [r|] eqn:Hr; simpl.
  - rewrite (alter_found _ st id r Hr), lookup_insert_eq. simpl.
    destruct (maxAttempts <=? count r + 1); [|reflexivity].
    f_equal. apply (alter_insert_eq st id).
  - rewrite (alter_insert_eq st id), lookup_insert_eq. reflexivity.
Qed.

Lemma recordAttempt_success st id now :
  recordAttempt id true now st = (tt, delete id st).
Proof. reflexivity. Qed.

Lemma canAttempt_table st id now :
  snd (canAttempt id now st) = st \/ snd (canAttempt id now st) = delete id st.
Proof.
  run_limiter. destruct (st !! id) as [r|]; [|by left].
  destruct (locked_and _ r); [by left|].
  destruct (locked_and _ r); [by right|by left].
Qed.

(** What holds of every record of a reachable table: it counts at least
    one failure, and it is locked exactly when the count reached the
    limit, until a time that is not zero. *)
Definition record_ok (r : AttemptRecord) : Prop :=
  1 <= count r /\
  match lockedUntil r with
  | Some t => maxAttempts <= count r /\ lockoutTime <= t
  | None => count r < maxAttempts
  end.

Lemma after_failure_ok now found :
  0 <= now ->
  match found with Some r => record_ok r | None => True end ->
  record_ok (after_failure now found).
Proof.
  intros Hnow Hfound. unfold record_ok, after_failure, maxAttempts, lockoutTime in *.
  destruct found as [r|]; simpl.
  - destruct Hfound as [H1 H2].
    destruct (5 <=? count r + 1) eqn:Hc; simpl.
    + apply Z.leb_le in Hc. lia.
    + apply Z.leb_gt in Hc. destruct (lockedUntil r); lia.
  - lia.
Qed.

Lemma reachable_ok st :
  reachable st -> forall id r, st !! id = Some r -> record_ok r.
Proof.
  induction 1 as [|id0 now st Hnow Hst IH|id0 success now st Hnow Hst IH];
    intros id r Hr.
  - by rewrite lookup_empty in Hr.
  - destruct (canAttempt_table st id0 now) as [E|E]; rewrite E in Hr.
    + eauto.
    + apply lookup_delete_Some in Hr as [_ Hr]. eauto.
  - destruct success.
    + rewrite recordAttempt_success in Hr. simpl in Hr.
      apply lookup_delete_Some in Hr as [_ Hr]. eauto.
    + rewrite recordAttempt_failure in Hr. simpl in Hr.
      destruct (decide (id0 = id)) as [->|Hne].
      * rewrite lookup_insert_eq in Hr. injection Hr as <-.
        apply after_failure_ok; [done|].
        destruct (st !! id) eqn:E; eauto.
      * rewrite lookup_insert_ne in Hr by done. eauto.
Qed.

Lemma canAttempt_eq st id now :
  canAttempt id now st =
  match st !! id with
  | None => (true, st)
  | Some r =>
      if locked_and (fun t => now <? t) r then (false, st)
      else if locked_and (fun t => t <=? now) r then (true, delete id st)
      else (count r <? maxAttempts, st)
  end.
Proof.
  run_limiter. destruct (st !! id) as [r|]; [|reflexivity].
  destruct (locked_and _ r); [reflexivity|].
  destruct (locked_and _ r); reflexivity.
Qed.

Lemma getAttemptsLeft_eq st id :
  getAttemptsLeft id st =
  (match st !! id with
   | None => maxAttempts
   | Some r => Z.max 0 (maxAttempts - count r)
   end, st).
Proof. run_limiter. destruct (st !! id); reflexivity. Qed.

(** The record after five failed attempts on a fresh identifier. *)
Definition locked_record (t1 t5 : Z) : AttemptRecord :=
  {| count := 5; firstAttempt := t1; lockedUntil := Some (t5 + lockoutTime) |}.

Lemma five_failures st id t1 t2 t3 t4 t5 :
  st !! id = None ->
  (recordAttempt id false t1;; recordAttempt id false t2;;
   recordAttempt id false t3;; recordAttempt id false t4;;
   recordAttempt id false t5) st
  = (tt, <[id := locked_record t1 t5]> st).
Proof.
  intros Hfresh. unfold mbind, M_bind.
  repeat (rewrite recordAttempt_failure; cbv beta iota).
  rewrite !lookup_insert_eq, Hfresh, !insert_insert_eq.
  reflexivity.
Qed.

(** C6.  From a table with no record for [id], five failed attempts lock
    the identifier: while the lockout has not expired [canAttempt] answers
    [false] and [getAttemptsLeft] answers 0; a successful attempt recorded
    afterwards resets it: [canAttempt] answers [true] and
    [getAttemptsLeft] answers 5. *)
Theorem five_failures_lock_and_success_resets
    st id (t1 t2 t3 t4 t5 now t6 now' : Z) :
  st !! id = None ->
  now < t5 + lockoutTime ->
  fst ((recordAttempt id false t1;; recordAttempt id false t2;;
        recordAttempt id false t3;; recordAttempt id false t4;;
        recordAttempt id false t5;;
        allowed ← canAttempt id now;
        left ← getAttemptsLeft id;
        recordAttempt id true t6;;
        allowed' ← canAttempt id now';
        left' ← getAttemptsLeft id;
        mret (allowed, left, allowed', left')) st)
  = (false, 0, true, 5).
Proof.
  intros Hfresh Hnow.
  pose proof (five_failures st id t1 t2 t3 t4 t5 Hfresh) as H5.
  unfold mbind, M_bind in *.
  repeat (rewrite recordAttempt_failure in *; cbv beta iota in * ).
  injection H5 as ->.
  assert (locked_and (fun t => now <? t) (locked_record t1 t5)
          || negb (locked_and (fun t => t <=? now) (locked_record t1 t5))
          = true) as Hlocked.
  { unfold locked_and. simpl.
    apply Z.ltb_lt in Hnow. rewrite Hnow.
    destruct (t5 + lockoutTime =? 0); reflexivity. }
  rewrite canAttempt_eq, lookup_insert_eq.
  assert ((if locked_and (fun t => now <? t) (locked_record t1 t5)
           then (false, <[id:=locked_record t1 t5]> st)
           else if locked_and (fun t => t <=? now) (locked_record t1 t5)
           then (true, delete id (<[id:=locked_record t1 t5]> st))
           else (count (locked_record t1 t5) <? maxAttempts,
                 <[id:=locked_record t1 t5]> st))
          = (false, <[id:=locked_record t1 t5]> st)) as ->.
  { destruct (locked_and (fun t => now <? t) _); [reflexivity|].
    destruct (locked_and (fun t => t <=? now) _); [discriminate|reflexivity]. }
  rewrite getAttemptsLeft_eq, lookup_insert_eq.
  rewrite recordAttempt_success.
  rewrite canAttempt_eq, lookup_delete_eq.
  rewrite getAttemptsLeft_eq, lookup_delete_eq.
  reflexivity.
Qed.

Lemma five_failures_lock_and_success_resets_witness :
  fst ((recordAttempt "login_store1" false 1000;;
        recordAttempt "login_store1" false 2000;;
        recordAttempt "login_store1" false 3000;;
        recordAttempt "login_store1" false 4000;;
        recordAttempt "login_store1" false 5000;;
        allowed ← canAttempt "login_store1" 6000;
        left ← getAttemptsLeft "login_store1";
        recordAttempt "login_store1" true 7000;;
        allowed' ← canAttempt "login_store1" 8000;
        left' ← getAttemptsLeft "login_store1";
        mret (allowed, left, allowed', left')) ∅)
  = (false, 0, true, 5).
Proof.
  apply (five_failures_lock_and_success_resets ∅ "login_store1").
  - reflexivity.
  - reflexivity.
Defined.

(** C7.  In a table the dashboard can reach, for every identifier and
    every clock reading: a record that carries [lockedUntil] makes
    [canAttempt] answer [false] strictly before that time, and answer
    [true] and delete the record from that time on; [canAttempt] answers
    [true] when there is no record and when the count is below
    [maxAttempts], and [false] in the remaining case. *)
Theorem canAttempt_respects_lockout st id (now : Z) :
  reachable st ->
  (forall r t, st !! id = Some r -> lockedUntil r = Some t -> now < t ->
     canAttempt id now st = (false, st)) /\
  (forall r t, st !! id = Some r -> lockedUntil r = Some t -> t <= now ->
     canAttempt id now st = (true, delete id st)) /\
  (st !! id = None -> canAttempt id now st = (true, st)) /\
  (forall r, st !! id = Some r -> count r < maxAttempts ->
     canAttempt id now st = (true, st)) /\
  (forall r, st !! id = Some r -> maxAttempts <= count r ->
     (forall t, lockedUntil r = Some t -> now < t) ->
     canAttempt id now st = (false, st)).
Proof.
  intros Hreach. rewrite canAttempt_eq.
  pose proof (reachable_ok st Hreach id) as Hok.
  destruct (st !! id) as [r0|]; [|by repeat split].
  specialize (Hok r0 eq_refl). destruct Hok as [Hcount Hlock].
  unfold locked_and, lockoutTime, maxAttempts in *.
  repeat split.
  - intros r t [= <-] Ht Hnow. rewrite Ht in *.
    replace (t =? 0) with false by (symmetry; apply Z.eqb_neq; lia).
    replace (now <? t) with true by (symmetry; apply Z.ltb_lt; lia).
    reflexivity.
  - intros r t [= <-] Ht Hnow. rewrite Ht in *.
    replace (t =? 0) with false by (symmetry; apply Z.eqb_neq; lia).
    replace (now <? t) with false by (symmetry; apply Z.ltb_ge; lia).
    replace (t <=? now) with true by (symmetry; apply Z.leb_le; lia).
    reflexivity.
  - intros [=].
  - intros r [= <-] Hc. destruct (lockedUntil r0); [lia|].
    replace (count r0 <? 5) with true by (symmetry; apply Z.ltb_lt; lia).
    reflexivity.
  - intros r [= <-] Hc Hfuture. destruct (lockedUntil r0) as [t|]; [|lia].
    specialize (Hfuture t eq_refl).
    replace (t =? 0) with false by (symmetry; apply Z.eqb_neq; lia).
    replace (now <? t) with true by (symmetry; apply Z.ltb_lt; lia).
    reflexivity.
Qed.

(** The table after five failures on the identifier of store [store1]. *)
Definition locked_table : gmap string AttemptRecord :=
  let fail now st := snd (recordAttempt "login_store1" false now st) in
  fail 5000 (fail 4000 (fail 3000 (fail 2000 (fail 1000 ∅)))).

Lemma locked_table_reachable : reachable locked_table.
Proof.
  unfold locked_table.
  repeat (apply reachable_recordAttempt; [lia|]).
  apply reachable_init.
Qed.

Lemma canAttempt_respects_lockout_witness :
  canAttempt "login_store1" 6000 locked_table = (false, locked_table)
  /\ canAttempt "login_store1" 905000 locked_table
     = (true, delete "login_store1" locked_table).
Proof.
  pose proof (canAttempt_respects_lockout locked_table "login_store1" 6000
                locked_table_reachable) as (Hbefore & _).
  pose proof (canAttempt_respects_lockout locked_table "login_store1" 905000
                locked_table_reachable) as (_ & Hafter & _).
  split.
  - apply (Hbefore (locked_record 1000 5000) 905000); [reflexivity| reflexivity | lia].
  - apply (Hafter (locked_record 1000 5000) 905000); [reflexivity| reflexivity | lia].
Defined.

(** C10.  [getRemainingTime] and [getAttemptsLeft] only read the table:
    whatever it holds, expired records included, it is the same after the
    call. *)
Theorem observers_leave_table_unchanged st id (now : Z) :
  snd (getRemainingTime id now st) = st /\
  snd (getAttemptsLeft id st) = st.
Proof.
  split.
  - run_limiter. destruct (st !! id) as [r|]; [|reflexivity].
    destruct (lockedUntil r) as [t|]; [|reflexivity].
    destruct (t =? 0); [reflexivity|].
    destruct (0 <? t - now); reflexivity.
  - rewrite getAttemptsLeft_eq. reflexivity.
Qed.

End RateLimiterFacts.


(** * Properties of the dashboard handlers *)

Section DashboardFacts.
Import Text Regex SecurityUtils RateLimiter AdminDashboard.

(** C1.  After the provider reported a signed-in user, a verifier call
    that fails (network or parse error) puts the session in the
    authenticated state with [isOwner] set, while a verifier answer whose
    [isOwner] is not [true] puts it in the not-owner state. *)
Theorem verifier_failure_fails_open_denial_is_not_owner
    (projectId : string) (firebaseUser : User) (d : Dashboard) :
  (let d' := onAuthStateChanged projectId (Some firebaseUser) VerifierFails d in
   authMode d' = Authenticated /\ isOwner d' = true) /\
  (forall data,
     data <> JsNull ->
     is_true (read_isOwner data) = false ->
     let d' := onAuthStateChanged projectId (Some firebaseUser)
                 (VerifierResponds data) d in
     authMode d' = NotOwner /\ isOwner d' = false).
Proof.
  split; [split; reflexivity|].
  intros data Hnull Hdenied. simpl.
  destruct (read_isOwner data) eqn:Hread.
  - destruct data; simpl in Hread; try discriminate; [contradiction|].
    destruct (field _ _); discriminate.
  - split; reflexivity.
  - destruct v as [|[|]| | | |]; try discriminate; split; reflexivity.
Qed.

Lemma verifier_failure_fails_open_denial_is_not_owner_witness :
  let denial := JsObject [("isOwner"%string, JsBool false)] in
  let d' := onAuthStateChanged "store1" (Some {| uid := "u1" |})
              (VerifierResponds denial) initial in
  authMode d' = NotOwner /\ isOwner d' = false.
Proof.
  intros denial.
  apply (proj2 (verifier_failure_fails_open_denial_is_not_owner
                  "store1" {| uid := "u1" |} initial) denial).
  - discriminate.
  - reflexivity.
Defined.

(** C8 (what the code does).  On the path where the verifier confirms
    ownership both [userId] and [projectId] are written to [localStorage];
    on the path where the verifier call fails the session also becomes
    authenticated and the payment check is triggered, but only [userId] is
    written: the key [projectId] keeps whatever it held. *)
Theorem fail_open_path_does_not_persist_projectId
    (projectId : string) (firebaseUser : User) (d : Dashboard) :
  (let d' := onAuthStateChanged projectId (Some firebaseUser)
               (VerifierResponds (JsObject [("isOwner"%string, JsBool true)])) d in
   authMode d' = Authenticated /\
   localStorage d'
   = <["projectId"%string := projectId]>
       (<["userId"%string := uid firebaseUser]> (localStorage d)) /\
   last (calls d') = Some CheckStripeConnect) /\
  (let d' := onAuthStateChanged projectId (Some firebaseUser) VerifierFails d in
   authMode d' = Authenticated /\
   localStorage d' = <["userId"%string := uid firebaseUser]> (localStorage d) /\
   localStorage d' !! "projectId"%string = localStorage d !! "projectId"%string /\
   last (calls d') = Some CheckStripeConnect).
Proof.
  repeat split; simpl; try apply last_snoc.
  by rewrite lookup_insert_ne.
Qed.

(** C8 at a concrete input: a first sign-in whose ownership check fails
    leaves no [projectId] in [localStorage]. *)
Lemma fail_open_on_fresh_storage :
  let d' := onAuthStateChanged "store1" (Some {| uid := "u1" |})
              VerifierFails initial in
  authMode d' = Authenticated /\
  localStorage d' !! "userId"%string = Some "u1"%string /\
  localStorage d' !! "projectId"%string = None.
Proof. repeat split. Qed.

(** C9.  A sign-in attempt made in the login state while the identifier
    is not locked out, with an email or a password on which [detectAttack]
    fires: a failed attempt is recorded for the identifier, that is, the
    table then holds a record for it that counts one failure more than
    the record [canAttempt] left (one, when it left none), locked for
    [lockoutTime] from that instant when the count has reached
    [maxAttempts], and the other records are as [canAttempt] left them;
    the state is still login, the message is the invalid-input one, and
    no call to the credential provider is made. *)
Theorem attack_input_is_recorded_and_not_sent
    (projectId : string) (email password : list ascii)
    (outcome : SignInOutcome) (now1 now2 : Z) (d : Dashboard) :
  authMode d = Login ->
  fst (canAttempt (identifier projectId) now1 (attempts d)) = true ->
  detectAttack (JStr email) || detectAttack (JStr password) = true ->
  let id := identifier projectId in
  let st := snd (canAttempt id now1 (attempts d)) in
  let before := match st !! id with Some r => count r | None => 0%Z end in
  let d' := handleLogin projectId email password outcome now1 now2 d in
  count <$> attempts d' !! id = Some (before + 1)%Z /\
  ((maxAttempts <= before + 1)%Z ->
   lockedUntil <$> attempts d' !! id = Some (Some (now2 + lockoutTime)%Z)) /\
  (forall id', id' <> id -> attempts d' !! id' = st !! id') /\
  attempts d'
  = snd (recordAttempt id false now2 st) /\
  authMode d' = Login /\
  authError d' = InvalidInput /\
  calls d' = calls d.
Proof.
  intros Hmode Hallowed Hattack. cbn zeta. unfold handleLogin, limiter.
  cbn [attempts setAuthError].
  destruct (canAttempt (identifier projectId) now1 (attempts d))
    as [allowed st] eqn:Hcan.
  cbn [fst snd] in *. subst allowed.
  cbn [negb attempts setAttempts]. rewrite Hattack.
  rewrite recordAttempt_failure.
  cbn [snd attempts setAttempts setAuthError authMode authError calls].
  rewrite lookup_insert_eq. repeat split; try assumption; try reflexivity.
  - intros Hmax. cbn. apply Z.leb_le in Hmax. by rewrite Hmax.
  - intros id' Hne. by apply lookup_insert_ne.
Qed.

Lemma attack_input_is_recorded_and_not_sent_witness :
  let d := setAttempts
             (<["login_store1"%string :=
                  {| count := 4; firstAttempt := 100;
                     lockedUntil := None |}]> ∅)
             (setAuthMode Login initial) in
  let d' := handleLogin "store1" (txt "' OR '1'='1") (txt "secret")
              SignInOk 1000 1001 d in
  count <$> attempts d' !! "login_store1"%string = Some 5%Z /\
  lockedUntil <$> attempts d' !! "login_store1"%string
  = Some (Some 901001%Z) /\
  authMode d' = Login /\
  authError d' = InvalidInput /\
  calls d' = [].
Proof.
  intros d d'.
  assert (detectAttack (JStr (txt "' OR '1'='1"))
          || detectAttack (JStr (txt "secret")) = true) as Hattack
    by (vm_compute; reflexivity).
  destruct (attack_input_is_recorded_and_not_sent "store1"
              (txt "' OR '1'='1") (txt "secret") SignInOk 1000 1001 d
              eq_refl eq_refl Hattack)
    as (Hcount & Hlock & _ & _ & Hmode & Herror & Hcalls).
  split; [exact Hcount|].
  split; [apply Hlock; vm_compute; intros Hgt; discriminate Hgt|].
  split; [exact Hmode|]. split; [exact Herror|exact Hcalls].
Defined.

(** The draft [{name: '<b>Shoe</b>', price: '-5'}]; the fields it leaves
    out are [undefined]. *)
Definition shoe_draft : ProductForm :=
  {| name := JStr (txt "<b>Shoe</b>"); description := undefined;
     price := JStr (txt "-5"); image := undefined; category := undefined;
     inStock := undefined; driveFileId := undefined;
     externalPaymentUrl := undefined |}.

(** The record [handleSubmit] builds from [shoe_draft]. *)
Definition shoe_record : Product :=
  {| p_name := txt "bShoe/b"; p_description := []; p_price := 5%Q;
     p_image := undefined; p_category := []; p_inStock := false;
     p_driveFileId := None; p_externalPaymentUrl := [] |}.

(** C2 as stated fails: the draft is not refused for its price.  The
    sanitized price is the string 5, which reads as the number 5. *)
Lemma shoe_draft_not_rejected :
  sanitizePrice (price shoe_draft) = txt "5" /\
  Qle_bool (or_zero (parseFloat (sanitizePrice (price shoe_draft)))) 0 = false /\
  handleSubmit None shoe_draft <> Rejected InvalidPrice.
Proof. repeat split. vm_compute. discriminate. Qed.

(** C2, amended.  [sanitizePrice] drops the minus sign, so the draft
    passes the price check with price 5 and is handed to the product
    store, with the name stripped of its angle brackets. *)
Theorem shoe_draft_is_accepted (editing : option string) :
  handleSubmit editing shoe_draft
  = match editing with
    | Some id => Updated id shoe_record
    | None => Added shoe_record
    end.
Proof. destruct editing; vm_compute; reflexivity. Qed.

(** One draft that [handleSubmit] does refuse for its price: the name
    passes, and the price sanitizes to [0.00]. *)
Lemma zero_price_is_rejected :
  handleSubmit None
    {| name := JStr (txt "Shoe"); description := undefined;
       price := JStr (txt "-0.00"); image := undefined; category := undefined;
       inStock := undefined; driveFileId := undefined;
       externalPaymentUrl := undefined |}
  = Rejected InvalidPrice.
Proof. vm_compute. reflexivity. Qed.

End DashboardFacts.


(** * Properties of the string operations and of the matcher *)

Section TextFacts.
Import Text Regex.

Implicit Types (s : list ascii) (P : ascii -> Prop) (f : ascii -> bool).

Lemma drop_while_Forall P f s : Forall P s -> Forall P (drop_while f s).
Proof.
  induction 1 as [|c t Hc Ht IH]; simpl; [constructor|].
  destruct (f c); [assumption|by constructor].
Qed.

Lemma trimEnd_Forall P s : Forall P s -> Forall P (trimEnd s).
Proof.
  induction 1 as [|c t Hc Ht IH]; simpl; [constructor|].
  destruct (trimEnd t).
  - destruct (is_space c); by repeat constructor.
  - by constructor.
Qed.

Lemma trim_Forall P s : Forall P s -> Forall P (trim s).
Proof. intros H. by apply trimEnd_Forall, drop_while_Forall. Qed.

Lemma trimStart_starts s : starts_with_space (trimStart s) = false.
Proof.
  induction s as [|c t IH]; [reflexivity|]. unfold trimStart in *. simpl.
  destruct (is_space c) eqn:Hc; [assumption|]. simpl. assumption.
Qed.

Lemma trimEnd_starts s :
  starts_with_space s = false -> starts_with_space (trimEnd s) = false.
Proof.
  destruct s as [|c t]; [reflexivity|]. simpl. intros Hc.
  destruct (trimEnd t); [rewrite Hc|]; simpl; assumption.
Qed.

Lemma trim_starts s : starts_with_space (trim s) = false.
Proof. apply trimEnd_starts, trimStart_starts. Qed.

Lemma take_starts n s :
  starts_with_space s = false -> starts_with_space (take n s) = false.
Proof. destruct s, n; simpl; auto. Qed.

Lemma ends_with_space_cons c s :
  ends_with_space (c :: s)
  = match s with [] => is_space c | _ :: _ => ends_with_space s end.
Proof. destruct s; reflexivity. Qed.

Lemma trimStart_id s : starts_with_space s = false -> trimStart s = s.
Proof. destruct s as [|c t]; [reflexivity|]. unfold trimStart. simpl. by intros ->. Qed.

Lemma trimEnd_id s : ends_with_space s = false -> trimEnd s = s.
Proof.
  induction s as [|c t IH]; [reflexivity|].
  rewrite ends_with_space_cons. simpl. destruct t as [|c' t'].
  - simpl. by intros ->.
  - intros H. rewrite (IH H). reflexivity.
Qed.

(** A string with no white space at either end is left as it is. *)
Lemma trim_id s :
  starts_with_space s = false -> ends_with_space s = false -> trim s = s.
Proof.
  intros Hs He. unfold trim. rewrite (trimStart_id s Hs). by apply trimEnd_id.
Qed.

(** *** Global removal *)

Lemma remove_from_Forall P r prev skip s :
  Forall P s -> Forall P (remove_from r prev skip s).
Proof.
  intros H. revert prev skip.
  induction H as [|c t Hc Ht IH]; intros prev skip; simpl; [constructor|].
  destruct skip; [|apply IH].
  destruct (run r (prev, c :: t)) as [|q ?]; [by constructor|].
  destruct (S (length t) - length q.2); [by constructor|apply IH].
Qed.

Lemma remove_all_Forall P r s : Forall P s -> Forall P (remove_all r s).
Proof. apply remove_from_Forall. Qed.

Lemma remove_from_length r prev skip s :
  length (remove_from r prev skip s) <= length s.
Proof.
  revert prev skip. induction s as [|c t IH]; intros prev skip; simpl; [lia|].
  destruct skip; [|specialize (IH (Some c) skip); lia].
  destruct (run r (prev, c :: t)) as [|q ?];
    [specialize (IH (Some c) 0); simpl; lia|].
  destruct (S (length t) - length q.2) as [|k];
    [specialize (IH (Some c) 0); simpl; lia|specialize (IH (Some c) k); lia].
Qed.

(** Where the pattern is found nowhere the string is left as it is. *)
Lemma remove_from_no_match r prev s :
  test_from r prev s = false -> remove_from r prev 0 s = s.
Proof.
  revert prev. induction s as [|c t IH]; intros prev; simpl; [reflexivity|].
  destruct (run r (prev, c :: t)); [|discriminate].
  intros H. by rewrite IH.
Qed.

Lemma remove_all_no_match r s : test r s = false -> remove_all r s = s.
Proof. apply remove_from_no_match. Qed.

(** A one-character pattern removes exactly the characters of its class. *)
Lemma remove_class_step f prev c s :
  remove_from (Class f) prev 0 (c :: s)
  = if f c then remove_from (Class f) (Some c) 0 s
    else c :: remove_from (Class f) (Some c) 0 s.
Proof.
  simpl. destruct (f c); [|reflexivity]. simpl.
  replace (S (length s) - length s) with 1 by lia. reflexivity.
Qed.

Lemma remove_class_Forall f prev s :
  Forall (fun c => f c = false) (remove_from (Class f) prev 0 s).
Proof.
  revert prev. induction s as [|c t IH]; intros prev; [constructor|].
  rewrite remove_class_step. destruct (f c) eqn:Hc; [apply IH|].
  constructor; [assumption|apply IH].
Qed.

Lemma remove_class_id f prev s :
  Forall (fun c => f c = false) s -> remove_from (Class f) prev 0 s = s.
Proof.
  intros H. revert prev. induction H as [|c t Hc Ht IH]; intros prev;
    [reflexivity|].
  rewrite remove_class_step, Hc, IH. reflexivity.
Qed.

End TextFacts.


(** * Properties of the sanitizers *)

Section SanitizerFacts.
Import Text Regex SecurityUtils.

Implicit Types (s y : list ascii) (x : jsval).

(** Applying a guarded pipeline to a string it leaves alone. *)
Lemma through_guard (g : list ascii -> list ascii) y :
  g y = y ->
  match as_text (JStr y) with None => [] | Some s => g s end = y.
Proof. destruct y; simpl; auto. Qed.

Lemma slice0_id n y : length y <= n -> slice0 n y = y.
Proof. apply take_ge. Qed.

Lemma slice0_length n s : length (slice0 n s) <= n.
Proof. unfold slice0. rewrite length_take. lia. Qed.

Lemma lower_char_idem c : lower_char (lower_char c) = lower_char c.
Proof. destruct c as [[] [] [] [] [] [] [] []]; reflexivity. Qed.

Lemma toLowerCase_fixed s :
  Forall (fun c => lower_char c = c) s -> toLowerCase s = s.
Proof.
  induction 1 as [|c t Hc Ht IH]; [reflexivity|].
  unfold toLowerCase in *. simpl. by rewrite Hc, IH.
Qed.

Lemma toLowerCase_Forall s : Forall (fun c => lower_char c = c) (toLowerCase s).
Proof.
  induction s as [|c t IH]; constructor; [apply lower_char_idem|apply IH].
Qed.

(** The shape every result of a trimming sanitizer has: none of the
    characters of the stripped class, no white space in front, and at most
    [limit] code units. *)
Definition shaped (stripped : ascii -> bool) (limit : nat) y : Prop :=
  Forall (fun c => stripped c = false) y /\
  starts_with_space y = false /\
  length y <= limit.

Lemma shaped_nil stripped limit : shaped stripped limit [].
Proof. repeat split; [constructor|simpl; lia]. Qed.

Lemma shaped_slice_trim stripped limit s :
  Forall (fun c => stripped c = false) s ->
  shaped stripped limit (slice0 limit (trim s)).
Proof.
  intros H. repeat split.
  - by apply Forall_take, trim_Forall.
  - apply take_starts, trim_starts.
  - apply slice0_length.
Qed.

Lemma shaped_fixed stripped limit y :
  shaped stripped limit y ->
  ends_with_space y = false ->
  slice0 limit (trim y) = y.
Proof.
  intros (_ & Hstart & Hlen) Hend.
  rewrite trim_id by assumption. by apply slice0_id.
Qed.

(** *** sanitizeCategory and sanitizeEmail *)

Lemma sanitizeCategory_shape x : shaped is_dangerous 100 (sanitizeCategory x).
Proof.
  unfold sanitizeCategory. destruct (as_text x); [|apply shaped_nil].
  apply shaped_slice_trim, remove_class_Forall.
Qed.

Lemma sanitizeCategory_fixed y :
  shaped is_dangerous 100 y ->
  ends_with_space y = false ->
  sanitizeCategory (JStr y) = y.
Proof.
  intros Hy Hend.
  apply (through_guard (fun s => slice0 100 (trim (remove_all re_dangerous s)))).
  unfold remove_all, re_dangerous.
  rewrite (remove_class_id _ _ _ (proj1 Hy)).
  by apply (shaped_fixed is_dangerous).
Qed.

Lemma sanitizeEmail_shape x :
  shaped is_dangerous 254 (sanitizeEmail x) /\
  Forall (fun c => lower_char c = c) (sanitizeEmail x).
Proof.
  unfold sanitizeEmail. destruct (as_text x);
    [|split; [apply shaped_nil|constructor]].
  split; [apply shaped_slice_trim, remove_class_Forall|].
  apply Forall_take, trim_Forall, remove_all_Forall, toLowerCase_Forall.
Qed.

Lemma sanitizeEmail_fixed y :
  shaped is_dangerous 254 y ->
  Forall (fun c => lower_char c = c) y ->
  ends_with_space y = false ->
  sanitizeEmail (JStr y) = y.
Proof.
  intros Hy Hlower Hend.
  apply (through_guard
           (fun s => slice0 254 (trim (remove_all re_dangerous (toLowerCase s))))).
  rewrite (toLowerCase_fixed y Hlower).
  unfold remove_all, re_dangerous.
  rewrite (remove_class_id _ _ _ (proj1 Hy)).
  by apply (shaped_fixed is_dangerous).
Qed.

(** *** sanitizeText, sanitizeName and sanitizeDescription *)

Definition is_angle (c : ascii) : bool := is_char "<" c || is_char ">" c.

Lemma sanitizeText_shape x : shaped is_angle 1000 (sanitizeText x).
Proof.
  unfold sanitizeText. destruct (as_text x); [|apply shaped_nil].
  apply shaped_slice_trim. do 3 apply remove_all_Forall.
  apply remove_class_Forall.
Qed.

Lemma sanitizeText_fixed y :
  shaped is_angle 1000 y ->
  ends_with_space y = false ->
  test re_javascript y = false ->
  test re_handler y = false ->
  test re_data y = false ->
  sanitizeText (JStr y) = y.
Proof.
  intros Hy Hend Hjs Hon Hdata.
  apply (through_guard
    (fun s => slice0 1000 (trim (remove_all re_data (remove_all re_handler
                (remove_all re_javascript (remove_all re_angle s))))))).
  unfold remove_all at 4. unfold re_angle.
  rewrite (remove_class_id _ _ _ (proj1 Hy)).
  rewrite (remove_all_no_match _ _ Hjs), (remove_all_no_match _ _ Hon),
    (remove_all_no_match _ _ Hdata).
  by apply (shaped_fixed is_angle).
Qed.

Lemma sanitizeName_shape x : shaped is_dangerous 200 (sanitizeName x).
Proof.
  unfold sanitizeName. destruct (as_text x); [|apply shaped_nil].
  apply shaped_slice_trim. do 2 apply remove_all_Forall.
  apply remove_class_Forall.
Qed.

Lemma sanitizeName_fixed y :
  shaped is_dangerous 200 y ->
  ends_with_space y = false ->
  test re_javascript y = false ->
  test re_handler y = false ->
  sanitizeName (JStr y) = y.
Proof.
  intros Hy Hend Hjs Hon.
  apply (through_guard
    (fun s => slice0 200 (trim (remove_all re_handler
                (remove_all re_javascript (remove_all re_dangerous s)))))).
  unfold remove_all at 3. unfold re_dangerous.
  rewrite (remove_class_id _ _ _ (proj1 Hy)).
  rewrite (remove_all_no_match _ _ Hjs), (remove_all_no_match _ _ Hon).
  by apply (shaped_fixed is_dangerous).
Qed.

Lemma sanitizeDescription_shape x :
  shaped (fun _ => false) 5000 (sanitizeDescription x).
Proof.
  unfold sanitizeDescription. destruct (as_text x); [|apply shaped_nil].
  apply shaped_slice_trim, Forall_forall. reflexivity.
Qed.

Lemma sanitizeDescription_fixed y :
  shaped (fun _ => false) 5000 y ->
  ends_with_space y = false ->
  test re_script y = false ->
  test re_iframe y = false ->
  test re_javascript y = false ->
  test re_handler y = false ->
  test re_data_html y = false ->
  sanitizeDescription (JStr y) = y.
Proof.
  intros Hy Hend Hscript Hiframe Hjs Hon Hdata.
  apply (through_guard (fun s => descriptionRest (remove_all re_script s))).
  unfold descriptionRest.
  rewrite (remove_all_no_match _ _ Hscript), (remove_all_no_match _ _ Hiframe),
    (remove_all_no_match _ _ Hjs), (remove_all_no_match _ _ Hon),
    (remove_all_no_match _ _ Hdata).
  by apply (shaped_fixed (fun _ => false)).
Qed.

(** *** sanitizeUrl *)

#[local] Arguments eq_ci : simpl never.
#[local] Arguments is_char : simpl never.

(** A pattern that starts with [^] can only match at the start. *)
Lemma test_from_bol r c s : test_from (Seq Bol r) (Some c) s = false.
Proof. revert c. induction s as [|c' t IH]; intros c; simpl; auto. Qed.

Lemma test_bol r s :
  test (Seq Bol r) s = match run r (None, s) with [] => false | _ :: _ => true end.
Proof.
  unfold test. destruct s as [|c t]; simpl; rewrite app_nil_r.
  - destruct (run r (None, [])); reflexivity.
  - destruct (run r (None, c :: t)); [apply test_from_bol|reflexivity].
Qed.

(** The body of [re_http], after the anchor. *)
Definition http_body : regex :=
  lit_ci "http" (Seq (Opt (Class (eq_ci "s"))) (lit "://" Eps)).

Ltac split_ifs :=
  repeat (simpl;
          match goal with
          | |- context [if ?b then _ else _] =>
              match type of b with bool => destruct b end
          end);
  simpl; try reflexivity.

(** [re_http] reads at most eight code units. *)
Lemma http_bounded s : test re_http (take 8 s) = test re_http s.
Proof.
  unfold re_http. fold http_body. rewrite !test_bol.
  do 8 (destruct s as [|? s]; [reflexivity|]).
  unfold http_body. change (take 8 ?l) with (take 8 l). cbn [take].
  split_ifs.
Qed.

Lemma eq_ci_excl a b c :
  canonicalize a <> canonicalize b -> eq_ci a c = true -> eq_ci b c = false.
Proof.
  unfold eq_ci. intros Hne Ha. apply Ascii.eqb_eq in Ha.
  apply Ascii.eqb_neq. congruence.
Qed.

(** A string that starts with [http] starts with none of the schemes of
    [re_bad_scheme]. *)
Lemma http_not_bad_scheme s :
  test re_http s = true -> test re_bad_scheme s = false.
Proof.
  unfold re_http, re_bad_scheme. rewrite !test_bol.
  destruct s as [|c t]; [discriminate|]. simpl.
  destruct (eq_ci "h" c) eqn:Hh; [intros _|discriminate].
  rewrite (eq_ci_excl "h" "j" c), (eq_ci_excl "h" "d" c),
    (eq_ci_excl "h" "v" c) by (assumption || discriminate).
  reflexivity.
Qed.

Definition url_shaped y : Prop :=
  starts_with_space y = false /\
  length y <= 2000 /\
  (y = [] \/ test re_http y = true).

Lemma sanitizeUrl_shape x : url_shaped (sanitizeUrl x).
Proof.
  assert (url_shaped []) as Hnil by (repeat split; [simpl; lia|by left]).
  unfold sanitizeUrl. destruct (as_text x) as [s|]; [|exact Hnil].
  pose proof (trim_starts s) as Hstart.
  destruct (trim s) as [|c t].
  - cbn. destruct (test re_bad_scheme []); exact Hnil.
  - destruct (test re_http (c :: t)) eqn:Hhttp; cbn [andb negb]; [|exact Hnil].
    rewrite (http_not_bad_scheme _ Hhttp).
    repeat split.
    + by apply take_starts.
    + apply slice0_length.
    + right. unfold slice0.
      rewrite <- http_bounded, take_take.
      change (8 `min` 2000) with 8. by rewrite http_bounded.
Qed.

Lemma sanitizeUrl_fixed y :
  url_shaped y -> ends_with_space y = false -> sanitizeUrl (JStr y) = y.
Proof.
  intros (Hstart & Hlen & Hhttp) Hend.
  destruct y as [|c t]; [reflexivity|].
  destruct Hhttp as [|Hhttp]; [discriminate|].
  unfold sanitizeUrl. cbn [as_text].
  rewrite (trim_id _ Hstart Hend), Hhttp, (http_not_bad_scheme _ Hhttp).
  by apply slice0_id.
Qed.

(** *** sanitizePrice *)

Lemma split_Forall (P : ascii -> Prop) sep s :
  Forall P s -> Forall (Forall P) (split sep s).
Proof.
  induction 1 as [|c t Hc Ht IH]; simpl; [by repeat constructor|].
  destruct (Ascii.eqb c sep); [by repeat constructor|].
  destruct (split sep t) as [|p ps]; [by repeat constructor|].
  inversion IH; subst. by repeat constructor.
Qed.

(** No part holds the separator. *)
Lemma split_parts_free sep s :
  Forall (Forall (fun c => c <> sep)) (split sep s).
Proof.
  induction s as [|c t IH]; simpl; [by repeat constructor|].
  destruct (Ascii.eqb c sep) eqn:Hc; [by repeat constructor|].
  apply Ascii.eqb_neq in Hc.
  destruct (split sep t) as [|p ps]; [by repeat constructor|].
  inversion IH; subst. by repeat constructor.
Qed.

Lemma split_free sep s : Forall (fun c => c <> sep) s -> split sep s = [s].
Proof.
  induction 1 as [|c t Hc Ht IH]; [reflexivity|]. simpl.
  apply Ascii.eqb_neq in Hc. by rewrite Hc, IH.
Qed.

Lemma split_app sep p q :
  Forall (fun c => c <> sep) p ->
  split sep (p ++ sep :: q) = p :: split sep q.
Proof.
  induction 1 as [|c t Hc Ht IH]; simpl.
  - by rewrite Ascii.eqb_refl.
  - apply Ascii.eqb_neq in Hc. by rewrite Hc, IH.
Qed.

Lemma split_nonempty sep s : 1 <= length (split sep s).
Proof.
  induction s as [|c t IH]; simpl; [lia|].
  destruct (Ascii.eqb c sep); simpl; [lia|].
  destruct (split sep t); simpl in *; lia.
Qed.

(** A prefix has no more parts than the whole string. *)
Lemma split_take sep n s :
  length (split sep (take n s)) <= length (split sep s).
Proof.
  revert n. induction s as [|c t IH]; intros [|n]; simpl; try lia.
  - destruct (Ascii.eqb c sep); simpl; [lia|].
    pose proof (split_nonempty sep t). destruct (split sep t); simpl in *; lia.
  - specialize (IH n). destruct (Ascii.eqb c sep); simpl; [lia|].
    pose proof (split_nonempty sep (take n t)).
    pose proof (split_nonempty sep t).
    destruct (split sep (take n t)), (split sep t); simpl in *; lia.
Qed.

Lemma concat_Forall (P : ascii -> Prop) (parts : list (list ascii)) :
  Forall (Forall P) parts -> Forall P (concat parts).
Proof.
  induction 1 as [|p ps Hp Hps IH]; simpl; [constructor|].
  by apply Forall_app.
Qed.

Definition price_shaped y : Prop :=
  Forall (fun c => is_price_char c = true) y /\ length (split "." y) <= 2.

Lemma cleaned_price s :
  Forall (fun c => is_price_char c = true) (remove_all re_not_price s).
Proof.
  eapply Forall_impl; [apply remove_class_Forall|].
  intros c Hc. simpl in Hc. by destruct (is_price_char c).
Qed.

Lemma sanitizePrice_shape x : price_shaped (sanitizePrice x).
Proof.
  unfold sanitizePrice. destruct (truthy x); cbn [negb];
    [|split; [constructor|simpl; lia]].
  set (cleaned := remove_all re_not_price (toString x)).
  pose proof (cleaned_price (toString x)) as Hclean. fold cleaned in Hclean.
  pose proof (split_Forall _ "." cleaned Hclean) as Hparts.
  pose proof (split_parts_free "." cleaned) as Hfree.
  destruct (2 <? length (split "." cleaned)) eqn:Hmany.
  - destruct (split "." cleaned) as [|p0 rest]; [discriminate|]. simpl.
    inversion Hparts; subst. inversion Hfree; subst. split.
    + apply Forall_app. split; [assumption|].
      constructor; [reflexivity|by apply concat_Forall].
    + rewrite split_app by assumption.
      rewrite split_free by (by apply concat_Forall). simpl. lia.
  - apply Nat.ltb_ge in Hmany. split.
    + by apply Forall_take.
    + etrans; [apply split_take|assumption].
Qed.

Lemma sanitizePrice_fixed y :
  price_shaped y -> length y <= 10 -> sanitizePrice (JStr y) = y.
Proof.
  intros [Hclean Hparts] Hlen. unfold sanitizePrice.
  destruct y as [|c t]; [reflexivity|]. cbn [truthy negb toString].
  unfold remove_all, re_not_price. rewrite remove_class_id.
  - apply Nat.ltb_ge in Hparts. rewrite Hparts. by apply slice0_id.
  - eapply Forall_impl; [exact Hclean|]. intros a ->. reflexivity.
Qed.

(** When the cleaned input holds at most one dot the result is cut at ten
    code units. *)
Lemma sanitizePrice_truncates_single_dot x :
  length (split "." (remove_all re_not_price (toString x))) <= 2 ->
  length (sanitizePrice x) <= 10.
Proof.
  intros H. unfold sanitizePrice. destruct (truthy x); cbn [negb];
    [|simpl; lia].
  apply Nat.ltb_ge in H. rewrite H. apply slice0_length.
Qed.

(** C4 (what the code does).  The two examples of the specification hold,
    but when the cleaned input holds two dots or more the function returns
    before the truncation: thirteen code units come back here. *)
Theorem sanitizePrice_many_dots_not_truncated :
  sanitizePrice (JStr (txt "12.34.56")) = txt "12.3456" /\
  sanitizePrice (JStr (txt "abc99.9")) = txt "99.9" /\
  sanitizePrice (JStr (txt "1.2.3456789012")) = txt "1.23456789012" /\
  length (sanitizePrice (JStr (txt "1.2.3456789012"))) = 13.
Proof. repeat split. Qed.

(** *** Idempotence *)

Inductive sanitizer : Type :=
| OfText | OfName | OfDescription | OfPrice | OfUrl | OfEmail | OfCategory.

Definition sanitize (k : sanitizer) : jsval -> list ascii :=
  match k with
  | OfText => sanitizeText
  | OfName => sanitizeName
  | OfDescription => sanitizeDescription
  | OfPrice => sanitizePrice
  | OfUrl => sanitizeUrl
  | OfEmail => sanitizeEmail
  | OfCategory => sanitizeCategory
  end.

(** A result is settled when a second pass has nothing left to do: it
    does not end in white space (a trimming sanitizer leaves trailing
    white space only where it cut the string at its length limit), none
    of the patterns the sanitizer deletes occurs in it, and, for a price,
    it holds at most ten code units. *)
Definition settled (k : sanitizer) (y : list ascii) : bool :=
  match k with
  | OfText =>
      negb (ends_with_space y) && negb (test re_javascript y)
      && negb (test re_handler y) && negb (test re_data y)
  | OfName =>
      negb (ends_with_space y) && negb (test re_javascript y)
      && negb (test re_handler y)
  | OfDescription =>
      negb (ends_with_space y) && negb (test re_script y)
      && negb (test re_iframe y) && negb (test re_javascript y)
      && negb (test re_handler y) && negb (test re_data_html y)
  | OfPrice => length y <=? 10
  | OfUrl | OfEmail | OfCategory => negb (ends_with_space y)
  end.

Ltac split_settled H :=
  repeat match type of H with
         | _ && _ = true => let H' := fresh H in apply andb_prop in H as [H H']
         end;
  repeat match goal with
         | H0 : negb _ = true |- _ => apply negb_true_iff in H0
         end.

(** C3 as stated fails for each of the seven sanitizers.  A single pass
    of a removal can assemble a new occurrence of the removed pattern out
    of the text around a deleted one; the many-dot path of
    [sanitizePrice] returns more than ten code units, which the second
    pass cuts; and a string cut at the length limit can end in white
    space, which the second pass trims. *)
Lemma second_pass_changes_result :
  let twice k x := sanitize k (JStr (sanitize k x)) in
  let nested := JStr (txt "javajavascript:script:") in
  let long n (p : string) := JStr (txt p ++ repeat "a"%char n ++ txt " b") in
  (sanitize OfText nested = txt "javascript:" /\ twice OfText nested = []) /\
  (sanitize OfName nested = txt "javascript:" /\ twice OfName nested = []) /\
  (sanitize OfDescription nested = txt "javascript:"
   /\ twice OfDescription nested = []) /\
  (sanitize OfPrice (JStr (txt "1.2.3456789012")) = txt "1.23456789012"
   /\ twice OfPrice (JStr (txt "1.2.3456789012")) = txt "1.23456789") /\
  (length (sanitize OfUrl (long 1991 "https://")) = 2000
   /\ length (twice OfUrl (long 1991 "https://")) = 1999) /\
  (length (sanitize OfEmail (long 253 "")) = 254
   /\ length (twice OfEmail (long 253 "")) = 253) /\
  (length (sanitize OfCategory (long 99 "")) = 100
   /\ length (twice OfCategory (long 99 "")) = 99).
Proof. repeat split; vm_compute; reflexivity. Qed.

Lemma sanitizers_not_idempotent :
  let twice k x := sanitize k (JStr (sanitize k x)) in
  let nested := JStr (txt "javajavascript:script:") in
  let long n (p : string) := JStr (txt p ++ repeat "a"%char n ++ txt " b") in
  twice OfText nested <> sanitize OfText nested /\
  twice OfName nested <> sanitize OfName nested /\
  twice OfDescription nested <> sanitize OfDescription nested /\
  twice OfPrice (JStr (txt "1.2.3456789012"))
    <> sanitize OfPrice (JStr (txt "1.2.3456789012")) /\
  twice OfUrl (long 1991 "https://") <> sanitize OfUrl (long 1991 "https://") /\
  twice OfEmail (long 253 "") <> sanitize OfEmail (long 253 "") /\
  twice OfCategory (long 99 "") <> sanitize OfCategory (long 99 "").
Proof.
  repeat split; intros H; apply (f_equal length) in H;
    vm_compute in H; discriminate.
Qed.

(** C3, amended.  Each sanitizer returns its own result unchanged when
    that result is settled. *)
Theorem sanitizer_idempotent_when_settled (k : sanitizer) (x : jsval) :
  settled k (sanitize k x) = true ->
  sanitize k (JStr (sanitize k x)) = sanitize k x.
Proof.
  intros H. destruct k; cbn [sanitize settled] in *; split_settled H.
  - by apply sanitizeText_fixed; [apply sanitizeText_shape|..].
  - by apply sanitizeName_fixed; [apply sanitizeName_shape|..].
  - by apply sanitizeDescription_fixed; [apply sanitizeDescription_shape|..].
  - apply sanitizePrice_fixed; [apply sanitizePrice_shape|].
    by apply Nat.leb_le.
  - by apply sanitizeUrl_fixed; [apply sanitizeUrl_shape|].
  - by apply sanitizeEmail_fixed; [apply sanitizeEmail_shape..|].
  - by apply sanitizeCategory_fixed; [apply sanitizeCategory_shape|].
Qed.

Lemma sanitizer_idempotent_when_settled_witness :
  let x := JStr (txt "  <b onclick=x>Summer dress</b> ") in
  sanitize OfText (JStr (sanitize OfText x)) = sanitize OfText x.
Proof.
  intros x. apply (sanitizer_idempotent_when_settled OfText x).
  vm_compute. reflexivity.
Defined.

End SanitizerFacts.


(** * The script block removal of sanitizeDescription *)

Section BlockFacts.
Import Text Regex SecurityUtils.

#[local] Arguments eq_ci : simpl never.
#[local] Arguments is_char : simpl never.

Implicit Types (s u v w : list ascii) (p q : pos) (r : regex).

(** The position [n] code units further. *)
Fixpoint advance (n : nat) (p : pos) : pos :=
  match n with
  | 0 => p
  | S n' =>
      match snd p with
      | c :: t => advance n' (Some c, t)
      | [] => p
      end
  end.

Lemma advance_app u prev v :
  snd (advance (length u) (prev, u ++ v)) = v.
Proof. revert prev. induction u as [|c t IH]; intros prev; simpl; auto. Qed.

(** A literal matches where it is a prefix, and the match goes on after it. *)
Lemma run_literal_ci (l : list ascii) (k : regex) p :
  run (fold_right (fun a r => Seq (Class (eq_ci a)) r) k l) p
  = if prefix_ci l (snd p) then run k (advance (length l) p) else [].
Proof.
  revert p. induction l as [|a l IH]; intros [prev s]; simpl; [reflexivity|].
  destruct s as [|c t]; simpl; [reflexivity|].
  destruct (eq_ci a c); simpl; [|reflexivity].
  by rewrite app_nil_r, IH.
Qed.

Lemma run_lit_ci pat k p :
  run (lit_ci pat k) p
  = if prefix_ci (txt pat) (snd p)
    then run k (advance (length (txt pat)) p) else [].
Proof. apply run_literal_ci. Qed.

(** The preferred continuation: when the first end position of [r1] lets
    [r2] match, the first match of the sequence goes through it. *)
Lemma flat_map_head {A B} (g : A -> list B) a l b l' :
  g a = b :: l' -> flat_map g (a :: l) = b :: (l' ++ flat_map g l).
Proof. intros H. simpl. by rewrite H. Qed.

(** The first end position of a greedy iteration: it goes through the
    first end position of one more round, and stays put when no round can
    be made. *)
Lemma star_round step n p q rest h l :
  step p = q :: rest ->
  length (snd q) < length (snd p) ->
  star step n q = h :: l ->
  exists l', star step (S n) p = h :: l'.
Proof.
  intros Hstep Hshort Hq. cbn [star]. rewrite Hstep. cbn [flat_map].
  apply Nat.ltb_lt in Hshort. rewrite Hshort, Hq. simpl. by eexists.
Qed.

Lemma star_stop step n p : step p = [] -> star step n p = [p].
Proof. intros H. destruct n; simpl; [reflexivity|]. by rewrite H. Qed.

Lemma run_seq r1 r2 p : run (Seq r1 r2) p = flat_map (run r2) (run r1 p).
Proof. reflexivity. Qed.

Lemma run_not_ahead r p :
  run (NotAhead r) p = match run r p with [] => [p] | _ :: _ => [] end.
Proof. reflexivity. Qed.

Lemma run_class_hit f prev c t :
  f c = true -> run (Class f) (prev, c :: t) = [(Some c, t)].
Proof. simpl. by intros ->. Qed.

Lemma run_class_miss f prev v :
  match v with c :: _ => f c = false | [] => True end ->
  run (Class f) (prev, v) = [].
Proof. destruct v as [|c v]; simpl; [reflexivity|]. by intros ->. Qed.

(** A greedy run over a class first stops where the class stops. *)
Lemma star_class_head f u : forall n prev v,
  length (u ++ v) <= n ->
  Forall (fun c => f c = true) u ->
  match v with c :: _ => f c = false | [] => True end ->
  exists l, star (run (Class f)) n (prev, u ++ v)
            = advance (length u) (prev, u ++ v) :: l.
Proof.
  induction u as [|c t IH]; intros n prev v Hn Hu Hv.
  - rewrite star_stop by (by apply run_class_miss). by exists nil.
  - destruct n as [|n]; [simpl in Hn; lia|].
    inversion Hu as [|? ? Hc Ht]; subst.
    destruct (IH n (Some c) v) as [l Hl]; [simpl in Hn; lia|assumption..|].
    apply (star_round _ n (prev, (c :: t) ++ v) (Some c, t ++ v) [] _ l);
      [by apply run_class_hit|cbn [snd app length]; lia|exact Hl].
Qed.

Lemma run_star_class_head f u prev v :
  Forall (fun c => f c = true) u ->
  match v with c :: _ => f c = false | [] => True end ->
  exists l, run (Star (Class f)) (prev, u ++ v)
            = advance (length u) (prev, u ++ v) :: l.
Proof. intros. by apply star_class_head. Qed.

Lemma advance_past u prev v :
  exists pv, advance (length u) (prev, u ++ v) = (pv, v).
Proof.
  exists (fst (advance (length u) (prev, u ++ v))).
  rewrite <- (advance_app u prev v) at 3. apply surjective_pairing.
Qed.

Lemma take_drop_while f s :
  take_while f s ++ drop_while f s = s.
Proof.
  induction s as [|c t IH]; simpl; [reflexivity|].
  destruct (f c); simpl; [by rewrite IH|reflexivity].
Qed.

Lemma take_while_Forall f s :
  Forall (fun c => f c = true) (take_while f s).
Proof.
  induction s as [|c t IH]; simpl; [constructor|].
  destruct (f c) eqn:Hc; by constructor.
Qed.

Lemma drop_while_head f s :
  match drop_while f s with c :: _ => f c = false | [] => True end.
Proof.
  induction s as [|c t IH]; simpl; [exact I|].
  destruct (f c) eqn:Hc; [exact IH|exact Hc].
Qed.

Lemma drop_while_length f s : length (drop_while f s) <= length s.
Proof.
  induction s as [|c t IH]; simpl; [lia|]. destruct (f c); simpl; lia.
Qed.

(** *** Occurrences *)

Lemma occurs_ci_cons pat c s :
  occurs_ci pat (c :: s) = false ->
  prefix_ci pat (c :: s) = false /\ occurs_ci pat s = false.
Proof. simpl. apply orb_false_elim. Qed.

Lemma occurs_ci_suffix pat u v :
  occurs_ci pat (u ++ v) = false -> occurs_ci pat v = false.
Proof.
  induction u as [|c t IH]; [auto|]. intros H.
  apply occurs_ci_cons in H as [_ H]. auto.
Qed.

Lemma occurs_ci_drop_while pat f s :
  occurs_ci pat s = false -> occurs_ci pat (drop_while f s) = false.
Proof.
  intros H. apply (occurs_ci_suffix pat (take_while f s)).
  by rewrite take_drop_while.
Qed.

Lemma prefix_ci_app pat u v :
  prefix_ci pat u = true -> prefix_ci pat (u ++ v) = true.
Proof.
  revert u. induction pat as [|a pat IH]; intros [|c u]; simpl; try done.
  intros H. apply andb_prop in H as [-> H]. simpl. auto.
Qed.

Lemma occurs_ci_front pat u v :
  occurs_ci pat (u ++ v) = false -> occurs_ci pat u = false.
Proof.
  induction u as [|c t IH]; intros H.
  - destruct pat; [by destruct v|reflexivity].
  - cbn [app] in H. apply occurs_ci_cons in H as [Hhere Hlater].
    cbn [occurs_ci]. rewrite (IH Hlater), orb_false_r.
    destruct (prefix_ci pat (c :: t)) eqn:E; [|reflexivity].
    apply (prefix_ci_app _ _ v) in E. cbn [app] in E. congruence.
Qed.

(** A pattern none of whose characters is [<] cannot end across a [<]. *)
Lemma prefix_ci_straddle pat w rest :
  Forall (fun b => eq_ci b "<" = false) pat ->
  prefix_ci pat w = false ->
  prefix_ci pat (w ++ "<"%char :: rest) = false.
Proof.
  intros Hpat. revert w. induction Hpat as [|a pat Ha Hpat IH]; intros w Hw;
    [discriminate|].
  destruct w as [|c w]; simpl in *; [by rewrite Ha|].
  destruct (eq_ci a c); simpl in *; [by apply IH|reflexivity].
Qed.

(** A pattern that has its only [<] in front does not start inside [w],
    before a [<], unless it occurs in [w]. *)
Lemma prefix_ci_before_lt a pat c w rest :
  Forall (fun b => eq_ci b "<" = false) pat ->
  prefix_ci (a :: pat) (c :: w) = false ->
  prefix_ci (a :: pat) ((c :: w) ++ "<"%char :: rest) = false.
Proof.
  intros Hpat H. simpl in *.
  destruct (eq_ci a c); simpl in *; [by apply prefix_ci_straddle|reflexivity].
Qed.

(** *** The loop of the block pattern *)

Section Loop.

(** The closing tag pattern: a [<] followed by characters other than [<];
    [rest] is a text that starts with the closing tag. *)
Variables (tail_pat : list ascii) (rest' : list ascii).
Let closing_pat : list ascii := "<"%char :: tail_pat.
Let rest : list ascii := "<"%char :: rest'.
Let closing : regex :=
  fold_right (fun a r => Seq (Class (eq_ci a)) r) Eps closing_pat.
Let group : regex :=
  Seq (NotAhead closing)
      (Seq (Class (is_char "<")) (Star (Class not_lt))).

Hypothesis tail_pat_no_lt : Forall (fun b => eq_ci b "<" = false) tail_pat.
Hypothesis rest_closes : prefix_ci closing_pat rest = true.

Lemma closing_at_rest prev : run closing (prev, rest) <> [].
Proof.
  unfold closing. rewrite run_literal_ci. cbn [snd].
  rewrite rest_closes. simpl. discriminate.
Qed.

Lemma closing_not_before prev c w :
  prefix_ci closing_pat (c :: w) = false ->
  run closing (prev, (c :: w) ++ rest) = [].
Proof.
  intros H. unfold closing. rewrite run_literal_ci. cbn [snd].
  unfold closing_pat, rest in *.
  by rewrite prefix_ci_before_lt.
Qed.

Lemma group_stops_at_rest prev : run group (prev, rest) = [].
Proof.
  unfold group. rewrite run_seq, run_not_ahead.
  pose proof (closing_at_rest prev) as H.
  destruct (run closing (prev, rest)); [contradiction|reflexivity].
Qed.

Lemma not_lt_head_of_rest w :
  match w with c :: _ => not_lt c = false | [] => True end ->
  match w ++ rest with c :: _ => not_lt c = false | [] => True end.
Proof. destruct w; [intros _; reflexivity|auto]. Qed.

(** One round of the loop, from a [<] that does not open the closing tag,
    first ends before the next [<]. *)
Lemma group_round prev w :
  prefix_ci closing_pat ("<"%char :: w) = false ->
  exists pv l,
    run group (prev, ("<"%char :: w) ++ rest)
    = (pv, drop_while not_lt w ++ rest) :: l.
Proof.
  intros Hw. unfold group.
  rewrite run_seq, run_not_ahead, (closing_not_before prev _ _ Hw).
  cbn [flat_map app]. rewrite app_nil_r, run_seq.
  rewrite (run_class_hit (is_char "<") prev "<"%char (w ++ rest) eq_refl).
  cbn [flat_map]. rewrite app_nil_r.
  replace (w ++ rest)
    with (take_while not_lt w ++ (drop_while not_lt w ++ rest))
    by (by rewrite app_assoc, take_drop_while).
  destruct (run_star_class_head not_lt (take_while not_lt w) (Some "<"%char)
              (drop_while not_lt w ++ rest)) as [l Hl].
  - apply take_while_Forall.
  - apply not_lt_head_of_rest, drop_while_head.
  - destruct (advance_past (take_while not_lt w) (Some "<"%char)
                (drop_while not_lt w ++ rest)) as [pv Hpv].
    rewrite Hpv in Hl. by exists pv, l.
Qed.

(** The loop first ends at the first closing tag. *)
Lemma loop_head m : forall w n prev,
  length w <= m ->
  match w with c :: _ => not_lt c = false | [] => True end ->
  occurs_ci closing_pat w = false ->
  length (w ++ rest) <= n ->
  exists pv l, star (run group) n (prev, w ++ rest) = (pv, rest) :: l.
Proof.
  induction m as [|m IH]; intros w n prev Hm Hhead Hfree Hn.
  - destruct w; [|simpl in Hm; lia].
    rewrite star_stop by apply group_stops_at_rest. by exists prev, nil.
  - destruct w as [|c w].
    { rewrite star_stop by apply group_stops_at_rest. by exists prev, nil. }
    assert (c = "<"%char) as ->.
    { unfold not_lt in Hhead. apply negb_false_iff in Hhead.
      by apply Ascii.eqb_eq in Hhead. }
    apply occurs_ci_cons in Hfree as [Hhere Hfree].
    destruct (group_round prev w Hhere) as (pv & l & Hround).
    destruct n as [|n]; [simpl in Hn; lia|].
    pose proof (drop_while_length not_lt w) as Hshort.
    destruct (IH (drop_while not_lt w) n pv) as (pv' & l' & Hstar).
    + simpl in Hm. lia.
    + apply drop_while_head.
    + by apply occurs_ci_drop_while.
    + rewrite length_app in *. cbn [length] in Hn. lia.
    + exists pv'.
      apply (star_round _ n _ _ _ _ l' Hround); [|exact Hstar].
      cbn [snd]. rewrite !length_app. cbn [length]. lia.
Qed.

End Loop.

(** *** The match of a whole block *)

Lemma same_ci_prefix pat t v : same_ci pat t = true -> prefix_ci pat (t ++ v) = true.
Proof.
  revert t. induction pat as [|a pat IH]; intros [|c t]; simpl; try done.
  intros H. apply andb_prop in H as [-> H]. simpl. auto.
Qed.

Lemma same_ci_length pat t : same_ci pat t = true -> length t = length pat.
Proof.
  revert t. induction pat as [|a pat IH]; intros [|c t]; simpl; try done.
  intros H. apply andb_prop in H as [_ H]. auto.
Qed.

Lemma eq_ci_lt c : eq_ci "<" c = true -> c = "<"%char.
Proof.
  destruct c as [[] [] [] [] [] [] [] []]; vm_compute; intros H;
    (reflexivity || discriminate).
Qed.

Lemma eq_ci_gt c : eq_ci ">" c = true -> c = ">"%char.
Proof.
  destruct c as [[] [] [] [] [] [] [] []]; vm_compute; intros H;
    (reflexivity || discriminate).
Qed.

Lemma eq_ci_t_word c : eq_ci "t" c = true -> is_word c = true.
Proof.
  destruct c as [[] [] [] [] [] [] [] []]; vm_compute; intros H;
    (reflexivity || discriminate).
Qed.

Ltac split_bool_conj H :=
  repeat match type of H with
         | _ && _ = true =>
             let H' := fresh "Hc" in apply andb_prop in H as [H' H]
         end.

(** The opening tag, in any letter case, is read by the head of the block
    pattern, which then stands between a word character and [>]: a word
    boundary. *)
Lemma run_open_tag (k : regex) prev op v :
  same_ci (txt "<script>") op = true ->
  exists t, is_word t = true /\
    run (lit_ci "<script" k) (prev, op ++ v) = run k (Some t, ">"%char :: v).
Proof.
  intros Hop.
  do 8 (destruct op as [|? op];
        [simpl in Hop; by rewrite ?andb_false_r in Hop|]).
  destruct op; [|simpl in Hop; by rewrite !andb_false_r in Hop].
  simpl in Hop. split_bool_conj Hop.
  match goal with H : eq_ci ">" ?c = true |- _ => apply eq_ci_gt in H; subst c end.
  match goal with H : eq_ci "t" ?c = true |- _ =>
    exists c; split; [by apply eq_ci_t_word|] end.
  rewrite run_lit_ci. simpl.
  repeat match goal with H : eq_ci _ _ = true |- _ => rewrite H; clear H end.
  reflexivity.
Qed.

Lemma run_word_boundary t v :
  is_word t = true ->
  run WordBoundary (Some t, ">"%char :: v) = [(Some t, ">"%char :: v)].
Proof. intros H. cbn. by rewrite H. Qed.

(** The parts of [re_script]. *)
Definition script_closing : regex := lit_ci "</script>" Eps.
Definition script_group : regex :=
  Seq (NotAhead script_closing)
      (Seq (Class (is_char "<")) (Star (Class not_lt))).

Lemma re_script_parts :
  re_script
  = lit_ci "<script"
      (Seq WordBoundary
        (Seq (Star (Class not_lt))
          (Seq (Star script_group) script_closing))).
Proof. reflexivity. Qed.

(** From an opening tag, the first match of [re_script] ends after the
    first closing tag. *)
Lemma run_script_block prev op body clo post :
  same_ci (txt "<script>") op = true ->
  same_ci (txt "</script>") clo = true ->
  occurs_ci (txt "</script>") body = false ->
  exists pv l,
    run re_script (prev, op ++ body ++ clo ++ post) = (pv, post) :: l.
Proof.
  intros Hop Hclo Hbody. rewrite re_script_parts.
  destruct (run_open_tag
              (Seq WordBoundary
                (Seq (Star (Class not_lt))
                  (Seq (Star script_group) script_closing)))
              prev op (body ++ clo ++ post) Hop) as (t & Ht & ->).
  rewrite run_seq, (run_word_boundary t _ Ht). cbn [flat_map].
  rewrite app_nil_r, run_seq.
  (* the closing tag starts with [<] *)
  destruct clo as [|c clo']; [discriminate|].
  pose proof Hclo as Hc. simpl in Hc. apply andb_prop in Hc as [Hc _].
  apply eq_ci_lt in Hc. subst c.
  (* the text up to the first [<] *)
  set (w := drop_while not_lt (">"%char :: body)).
  assert (occurs_ci (txt "</script>") w = false) as Hw.
  { apply occurs_ci_drop_while. simpl. exact Hbody. }
  replace (">"%char :: body ++ ("<"%char :: clo') ++ post)
    with (take_while not_lt (">"%char :: body)
          ++ (w ++ "<"%char :: clo' ++ post)).
  2:{ rewrite app_assoc. unfold w. by rewrite take_drop_while. }
  destruct (run_star_class_head not_lt (take_while not_lt (">"%char :: body))
              (Some t) (w ++ "<"%char :: clo' ++ post)) as [l1 Hl1].
  { apply take_while_Forall. }
  { pose proof (drop_while_head not_lt (">"%char :: body)) as Hh.
    fold w in Hh. destruct w; [reflexivity|exact Hh]. }
  destruct (advance_past (take_while not_lt (">"%char :: body)) (Some t)
              (w ++ "<"%char :: clo' ++ post)) as [pv1 Hpv1].
  rewrite Hpv1 in Hl1. rewrite Hl1. clear Hl1 Hpv1.
  (* the loop and the closing tag *)
  assert (prefix_ci (txt "</script>") ("<"%char :: clo' ++ post) = true)
    as Hcloses by exact (same_ci_prefix _ ("<"%char :: clo') post Hclo).
  destruct (loop_head (txt "/script>") (clo' ++ post)
              ltac:(repeat constructor) Hcloses
              (length w) w (length (w ++ "<"%char :: clo' ++ post)) pv1)
    as (pv2 & l2 & Hloop).
  { lia. }
  { apply (drop_while_head not_lt (">"%char :: body)). }
  { exact Hw. }
  { lia. }
  assert (exists pv3, run script_closing (pv2, "<"%char :: clo' ++ post)
                      = [(pv3, post)]) as [pv3 Hclosing].
  { unfold script_closing. rewrite run_lit_ci. cbn [snd]. rewrite Hcloses.
    rewrite <- (same_ci_length _ _ Hclo).
    destruct (advance_past ("<"%char :: clo') pv2 post) as [pv3 Hpv3].
    exists pv3. cbn [run]. exact (f_equal (fun q => [q]) Hpv3). }
  assert (run (Star script_group) (pv1, w ++ "<"%char :: clo' ++ post)
          = (pv2, "<"%char :: clo' ++ post) :: l2) as Hstar by exact Hloop.
  exists pv3. eexists.
  apply flat_map_head. rewrite run_seq, Hstar.
  apply flat_map_head. exact Hclosing.
Qed.

(** *** Removal of a block *)

Lemma remove_from_unfold r prev skip c t :
  remove_from r prev skip (c :: t)
  = match skip with
    | S k => remove_from r (Some c) k t
    | 0 =>
        match run r (prev, c :: t) with
        | q :: _ =>
            match length (c :: t) - length (snd q) with
            | S k => remove_from r (Some c) k t
            | 0 => c :: remove_from r (Some c) 0 t
            end
        | [] => c :: remove_from r (Some c) 0 t
        end
    end.
Proof. reflexivity. Qed.

(** Dropping the rest of a match. *)
Lemma remove_from_skip r u : forall prev s,
  remove_from r prev (length u) (u ++ s)
  = remove_from r (fst (advance (length u) (prev, u ++ s))) 0 s.
Proof.
  induction u as [|c t IH]; intros prev s; [reflexivity|].
  cbn [length app]. rewrite remove_from_unfold. apply IH.
Qed.

(** A match that covers [block] is deleted and the search resumes after it. *)
Lemma remove_from_match r prev block post pv l :
  block <> [] ->
  run r (prev, block ++ post) = (pv, post) :: l ->
  remove_from r prev 0 (block ++ post)
  = remove_from r (fst (advance (length block) (prev, block ++ post))) 0 post.
Proof.
  intros Hne Hrun. destruct block as [|c t]; [done|].
  cbn [app] in *. rewrite remove_from_unfold, Hrun. cbn [snd length].
  rewrite length_app.
  replace (S (length t + length post) - length post) with (S (length t)) by lia.
  apply remove_from_skip.
Qed.

(** Where no match starts inside [pre], [pre] is kept. *)
Lemma remove_from_keep r pre : forall prev s,
  (forall a b pv, pre = a ++ b -> b <> [] -> run r (pv, b ++ s) = []) ->
  remove_from r prev 0 (pre ++ s)
  = pre ++ remove_from r (fst (advance (length pre) (prev, pre ++ s))) 0 s.
Proof.
  induction pre as [|c t IH]; intros prev s Hnone; [reflexivity|].
  cbn [app length]. rewrite remove_from_unfold.
  pose proof (Hnone [] (c :: t) prev eq_refl ltac:(done)) as Hhere.
  cbn [app] in Hhere. rewrite Hhere.
  f_equal. apply IH. intros a b pv -> Hb.
  by apply (Hnone (c :: a) b pv).
Qed.

(** A pattern that starts with a character does not look at what comes
    before the position. *)
Lemma remove_from_prev f r (prev1 prev2 : option ascii) s :
  remove_from (Seq (Class f) r) prev1 0 s
  = remove_from (Seq (Class f) r) prev2 0 s.
Proof. destruct s; reflexivity. Qed.

Lemma re_script_head :
  exists r, re_script = Seq (Class (eq_ci "<")) r.
Proof. eexists. reflexivity. Qed.

(** No occurrence of the opening pattern, no match. *)
Lemma run_script_none pv s :
  prefix_ci (txt "<script") s = false -> run re_script (pv, s) = [].
Proof.
  intros H. rewrite re_script_parts, run_lit_ci. cbn [snd]. by rewrite H.
Qed.

Lemma occurs_ci_suffix_prefix pat a b :
  occurs_ci pat (a ++ b) = false -> b <> [] -> prefix_ci pat b = false.
Proof.
  intros H Hb. apply occurs_ci_suffix in H.
  destruct b as [|c b]; [done|]. by apply occurs_ci_cons in H as [H _].
Qed.

(** The first pass of [sanitizeDescription] on a text with a script
    block: the text before the block is kept, the block is deleted from
    its opening tag to its first closing tag, and the pass goes on with
    the text after the block. *)
Lemma remove_script_block pre op body clo post :
  same_ci (txt "<script>") op = true ->
  same_ci (txt "</script>") clo = true ->
  occurs_ci (txt "<script") pre = false ->
  occurs_ci (txt "</script>") body = false ->
  remove_all re_script (pre ++ op ++ body ++ clo ++ post)
  = pre ++ remove_all re_script post.
Proof.
  intros Hop Hclo Hpre Hbody. unfold remove_all.
  destruct re_script_head as [k Hk].
  (* the opening tag starts with [<] *)
  destruct op as [|c op']; [discriminate|].
  pose proof Hop as Hc. simpl in Hc. apply andb_prop in Hc as [Hc _].
  apply eq_ci_lt in Hc. subst c.
  rewrite remove_from_keep.
  2:{ intros a b pv -> Hb. apply run_script_none.
      destruct b as [|c b]; [done|].
      apply (prefix_ci_before_lt "<" (txt "script"));
        [repeat constructor|].
      by apply (occurs_ci_suffix_prefix _ a). }
  f_equal.
  replace (("<"%char :: op') ++ body ++ clo ++ post)
    with ((("<"%char :: op') ++ body ++ clo) ++ post)
    by (by rewrite <- !app_assoc).
  set (pv := fst (advance (length pre) _)).
  destruct (run_script_block pv ("<"%char :: op') body clo post Hop Hclo Hbody)
    as (pv' & l & Hrun).
  replace (("<"%char :: op') ++ body ++ clo ++ post)
    with ((("<"%char :: op') ++ body ++ clo) ++ post) in Hrun
    by (by rewrite <- !app_assoc).
  assert ((("<"%char :: op') ++ body ++ clo) <> []) as Hblock by done.
  rewrite (remove_from_match _ _ _ _ _ _ Hblock Hrun).
  rewrite Hk. apply remove_from_prev.
Qed.

Lemma test_script_none prev s :
  occurs_ci (txt "<script") s = false -> test_from re_script prev s = false.
Proof.
  revert prev. induction s as [|c t IH]; intros prev H.
  - cbn [test_from]. by rewrite (run_script_none prev [] eq_refl).
  - apply occurs_ci_cons in H as [Hhere Hlater].
    cbn [test_from]. rewrite (run_script_none _ _ Hhere). by apply IH.
Qed.


Lemma nested_script_is_assembled :
  sanitizeDescription (JStr (txt "<scr<script></script>ipt>alert(1)</script>"))
  = txt "<script>alert(1)</script>".
Proof. vm_compute. reflexivity. Qed.



(** When the block is the only place where [<script] occurs, the result is
    the one of the text without the block. *)
Corollary sanitizeDescription_only_script_block
    (pre op body clo post : list ascii) :
  same_ci (txt "<script>") op = true ->
  same_ci (txt "</script>") clo = true ->
  occurs_ci (txt "<script") (pre ++ post) = false ->
  occurs_ci (txt "</script>") body = false ->
  sanitizeDescription (JStr (pre ++ op ++ body ++ clo ++ post))
  = sanitizeDescription (JStr (pre ++ post)).
Proof.
  intros Hop Hclo Hrest Hbody.
  pose proof (occurs_ci_front _ _ _ Hrest) as Hpre.
  assert (remove_all re_script (pre ++ op ++ body ++ clo ++ post)
          = remove_all re_script (pre ++ post)) as Hpass.
  { rewrite remove_script_block by assumption.
    rewrite (remove_all_no_match re_script post)
      by (by apply test_script_none, (occurs_ci_suffix _ pre)).
    by rewrite (remove_all_no_match re_script (pre ++ post))
      by (by apply test_script_none). }
  unfold sanitizeDescription.
  destruct (pre ++ op ++ body ++ clo ++ post) as [|c t] eqn:E.
  { apply app_eq_nil in E as [_ E]. apply app_eq_nil in E as [-> _].
    discriminate. }
  cbn [as_text]. rewrite Hpass.
  rewrite (remove_all_no_match re_script (pre ++ post))
    by (by apply test_script_none).
  destruct (pre ++ post) as [|c' t'] eqn:E'; [reflexivity|]. cbn [as_text].
  by rewrite (remove_all_no_match re_script (c' :: t'))
    by (by apply test_script_none).
Qed.

End BlockFacts.


(** * Further properties of the sanitizers *)

Section SanitizerPolicy.
Import Text Regex SecurityUtils.

#[local] Arguments eq_ci : simpl never.
#[local] Arguments is_char : simpl never.

Implicit Types (s y : list ascii) (x : jsval).

(** X1.  Whatever the input, the result of [sanitizeText] holds no angle
    bracket, and the results of [sanitizeName], [sanitizeEmail] and
    [sanitizeCategory] hold none of the characters [<], [>], double
    quote, single quote, backquote, [;] and backslash. *)
Theorem sanitizers_strip_their_characters x :
  Forall (fun c => c <> "<"%char /\ c <> ">"%char) (sanitizeText x) /\
  Forall (fun c => is_dangerous c = false) (sanitizeName x) /\
  Forall (fun c => is_dangerous c = false) (sanitizeEmail x) /\
  Forall (fun c => is_dangerous c = false) (sanitizeCategory x).
Proof.
  repeat split.
  - eapply Forall_impl; [apply (sanitizeText_shape x)|].
    intros c Hc. unfold is_angle, is_char in Hc.
    apply orb_false_elim in Hc as [H1 H2].
    by apply Ascii.eqb_neq in H1, H2.
  - apply (sanitizeName_shape x).
  - apply (sanitizeEmail_shape x).
  - apply (sanitizeCategory_shape x).
Qed.

(** X2.  Whatever the input, the results are within the length limits of
    the sanitizers and do not start with white space. *)
Theorem sanitizers_respect_their_limits x :
  (length (sanitizeText x) <= 1000 /\ starts_with_space (sanitizeText x) = false) /\
  (length (sanitizeName x) <= 200 /\ starts_with_space (sanitizeName x) = false) /\
  (length (sanitizeDescription x) <= 5000
   /\ starts_with_space (sanitizeDescription x) = false) /\
  (length (sanitizeUrl x) <= 2000 /\ starts_with_space (sanitizeUrl x) = false) /\
  (length (sanitizeEmail x) <= 254 /\ starts_with_space (sanitizeEmail x) = false) /\
  (length (sanitizeCategory x) <= 100
   /\ starts_with_space (sanitizeCategory x) = false).
Proof.
  pose proof (sanitizeText_shape x) as (_ & ? & ?).
  pose proof (sanitizeName_shape x) as (_ & ? & ?).
  pose proof (sanitizeDescription_shape x) as (_ & ? & ?).
  pose proof (sanitizeUrl_shape x) as (? & ? & _).
  pose proof (sanitizeEmail_shape x) as [(_ & ? & ?) _].
  pose proof (sanitizeCategory_shape x) as (_ & ? & ?).
  repeat split; assumption.
Qed.

(** *** sanitizeUrl *)

Lemma eq_ci_colon c : eq_ci ":" c = is_char ":" c.
Proof. destruct c as [[] [] [] [] [] [] [] []]; reflexivity. Qed.

Lemma eq_ci_slash c : eq_ci "/" c = is_char "/" c.
Proof. destruct c as [[] [] [] [] [] [] [] []]; reflexivity. Qed.

(** Does [s] start with [http://] or [https://], letter case ignored? *)
Definition http_prefixed s : bool :=
  prefix_ci (txt "http://") s || prefix_ci (txt "https://") s.

Ltac case_bools :=
  repeat (simpl;
          match goal with
          | |- context [if ?b then _ else _] =>
              match type of b with
              | bool => destruct b eqn:?; try discriminate
              end
          end);
  simpl; try reflexivity;
  try (repeat match goal with
              | |- context [is_char ?a ?c] => destruct (is_char a c)
              end; reflexivity).

Lemma test_http_spec s : test re_http s = http_prefixed s.
Proof.
  unfold re_http, http_prefixed. rewrite test_bol.
  do 8 (destruct s as [|? s];
        [simpl; rewrite ?eq_ci_colon, ?eq_ci_slash; case_bools|]).
  simpl. rewrite ?eq_ci_colon, ?eq_ci_slash. case_bools.
Qed.

Lemma sanitizeUrl_eq s :
  sanitizeUrl (JStr s)
  = if http_prefixed (trim s) then slice0 2000 (trim s) else [].
Proof.
  destruct s as [|c t]; [reflexivity|].
  unfold sanitizeUrl. cbn [as_text]. rewrite <- test_http_spec.
  destruct (trim (c :: t)) as [|c' t']; [reflexivity|].
  destruct (test re_http (c' :: t')) eqn:Hhttp; cbn [andb negb]; [|reflexivity].
  by rewrite (http_not_bad_scheme _ Hhttp).
Qed.

(** X3.  [sanitizeUrl] returns the trimmed input, cut at 2000 code
    units, when it starts with [http://] or [https://] in any letter
    case, and the empty string in every other case, a value that is not
    a string included; the test on [javascript:], [data:] and
    [vbscript:] never decides. *)
Theorem sanitizeUrl_policy :
  (forall b r, sanitizeUrl (JOther b r) = []) /\
  (forall s, sanitizeUrl (JStr s)
             = if http_prefixed (trim s) then slice0 2000 (trim s) else []).
Proof.
  split; [reflexivity|]. exact sanitizeUrl_eq.
Qed.

(** X4.  A string of at most 2000 code units that starts with [http://]
    or [https://] and has no white space at either end comes back
    unchanged. *)
Theorem sanitizeUrl_keeps_http_urls s :
  http_prefixed s = true ->
  starts_with_space s = false ->
  ends_with_space s = false ->
  length s <= 2000 ->
  sanitizeUrl (JStr s) = s.
Proof.
  intros Hhttp Hstart Hend Hlen.
  rewrite sanitizeUrl_eq, (trim_id s Hstart Hend), Hhttp.
  by apply slice0_id.
Qed.

Lemma sanitizeUrl_keeps_http_urls_witness :
  sanitizeUrl (JStr (txt "https://example.com/pay"))
  = txt "https://example.com/pay".
Proof.
  apply sanitizeUrl_keeps_http_urls.
  - reflexivity.
  - reflexivity.
  - reflexivity.
  - vm_compute. lia.
Defined.

(** *** sanitizePrice *)

Lemma split_length sep s :
  length (split sep s) = S (count_occ ascii_dec s sep).
Proof.
  induction s as [|c t IH]; [reflexivity|]. simpl.
  destruct (ascii_dec c sep) as [->|Hne].
  - rewrite Ascii.eqb_refl. simpl. by rewrite IH.
  - apply Ascii.eqb_neq in Hne. rewrite Hne.
    destruct (split sep t); simpl in *; lia.
Qed.

(** X5.  Whatever the input, the result of [sanitizePrice] holds digits
    and dots only, and at most one dot. *)
Theorem sanitizePrice_digits_and_one_dot x :
  Forall (fun c => is_digit c = true \/ c = "."%char) (sanitizePrice x) /\
  count_occ ascii_dec (sanitizePrice x) "."%char <= 1.
Proof.
  destruct (sanitizePrice_shape x) as [Hchars Hparts]. split.
  - eapply Forall_impl; [exact Hchars|]. intros c Hc.
    unfold is_price_char in Hc. apply orb_prop in Hc as [Hc|Hc]; [by left|].
    right. by apply Ascii.eqb_eq in Hc.
  - rewrite split_length in Hparts. lia.
Qed.

Lemma remove_not_price_filter prev s :
  remove_from re_not_price prev 0 s = List.filter is_price_char s.
Proof.
  revert prev. induction s as [|c t IH]; intros prev; [reflexivity|].
  unfold re_not_price in *. rewrite remove_class_step. simpl.
  destruct (is_price_char c); simpl; by rewrite IH.
Qed.

Lemma filter_price_idem s :
  List.filter is_price_char (List.filter is_price_char s)
  = List.filter is_price_char s.
Proof.
  induction s as [|c t IH]; [reflexivity|]. simpl.
  destruct (is_price_char c) eqn:Hc; simpl; [|exact IH].
  by rewrite Hc, IH.
Qed.

(** X6.  [sanitizePrice] reads the digits and the dots of a string and
    nothing else: a sign, a currency symbol or a space changes nothing. *)
Theorem sanitizePrice_reads_digits_and_dots_only s :
  sanitizePrice (JStr s) = sanitizePrice (JStr (List.filter is_price_char s)).
Proof.
  unfold sanitizePrice, remove_all. cbn [toString].
  rewrite !remove_not_price_filter, filter_price_idem.
  destruct s as [|c t]; [reflexivity|]. cbn [truthy negb].
  destruct (List.filter is_price_char (c :: t)) as [|c' t'] eqn:E;
    reflexivity.
Qed.

(** *** sanitizeEmail *)

Lemma lower_fixed_not_upper c : lower_char c = c -> is_upper c = false.
Proof.
  destruct c as [[] [] [] [] [] [] [] []]; vm_compute; intros H;
    (reflexivity || discriminate).
Qed.

(** X7.  The result of [sanitizeEmail] holds no capital letter, and the
    letter case of the input does not matter. *)
Theorem sanitizeEmail_ignores_letter_case :
  (forall x, Forall (fun c => is_upper c = false) (sanitizeEmail x)) /\
  (forall s, sanitizeEmail (JStr (toLowerCase s)) = sanitizeEmail (JStr s)).
Proof.
  split.
  - intros x. eapply Forall_impl; [apply (proj2 (sanitizeEmail_shape x))|].
    apply lower_fixed_not_upper.
  - intros [|c t]; [reflexivity|]. unfold sanitizeEmail.
    change (as_text (JStr (toLowerCase (c :: t))))
      with (Some (toLowerCase (c :: t))).
    cbn [as_text].
    by rewrite (toLowerCase_fixed _ (toLowerCase_Forall (c :: t))).
Qed.

(** *** detectAttack *)

Lemma test_from_unfold r prev s :
  test_from r prev s
  = match run r (prev, s) with
    | _ :: _ => true
    | [] => match s with [] => false | c :: t => test_from r (Some c) t end
    end.
Proof. destruct s; reflexivity. Qed.

(** A literal pattern is found wherever its text occurs. *)
Lemma test_literal_occurs pat prev s :
  occurs_ci (txt pat) s = true -> test_from (lit_ci pat Eps) prev s = true.
Proof.
  revert prev. induction s as [|c t IH]; intros prev H;
    rewrite test_from_unfold, run_lit_ci; cbn [snd].
  - simpl in H. rewrite orb_false_r in H. by rewrite H.
  - cbn [occurs_ci] in H. destruct (prefix_ci (txt pat) (c :: t));
      [reflexivity|]. simpl in H. by apply IH.
Qed.

(** A pattern is found wherever a match can start, whatever comes before. *)
Lemma test_from_app r pre s : forall prev,
  (forall pv, run r (pv, s) <> []) ->
  test_from r prev (pre ++ s) = true.
Proof.
  induction pre as [|c t IH]; intros prev H; rewrite test_from_unfold.
  - specialize (H prev). simpl. by destruct (run r (prev, s)).
  - cbn [app]. destruct (run r (prev, c :: t ++ s)); [|reflexivity].
    by apply IH.
Qed.

Lemma detectAttack_occurs s :
  occurs_ci (txt "<script") s = true \/ occurs_ci (txt "javascript:") s = true ->
  detectAttack (JStr s) = true.
Proof.
  intros H. unfold detectAttack.
  assert (s <> []) as Hs.
  { intros ->. destruct H as [H|H]; discriminate. }
  destruct s as [|c t]; [done|]. cbn [as_text].
  unfold attackPatterns. cbn [existsb]. unfold test.
  destruct H as [H|H]; rewrite (test_literal_occurs _ None _ H);
    [reflexivity|apply orb_true_r].
Qed.

(** X8.  [detectAttack] fires on every text in which [<script] or
    [javascript:] occurs, in any letter case and at any place. *)
Theorem detectAttack_flags_script_and_javascript s :
  occurs_ci (txt "<script") s = true \/ occurs_ci (txt "javascript:") s = true ->
  detectAttack (JStr s) = true.
Proof. exact (detectAttack_occurs s). Qed.

Lemma detectAttack_flags_script_and_javascript_witness :
  detectAttack (JStr (txt "Click <a href=JavaScript:alert(1)>here</a>")) = true.
Proof.
  apply detectAttack_flags_script_and_javascript.
  right. reflexivity.
Defined.

(** The seventh pattern, the quoted [or] test. *)
Definition quoted_or_pattern : regex := nth 6 attackPatterns Eps.

Lemma run_star_class_stop f prev c t :
  f c = false -> run (Star (Class f)) (prev, c :: t) = [(prev, c :: t)].
Proof.
  intros H. cbn [run]. apply star_stop. simpl. by rewrite H.
Qed.

Lemma star_unfold step n (p : pos) :
  star step (S n) p
  = flat_map (fun q => if length (snd q) <? length (snd p)
                       then star step n q else []) (step p) ++ [p].
Proof. reflexivity. Qed.

Lemma run_star_class_one f prev c1 c2 t :
  f c1 = true -> f c2 = false ->
  run (Star (Class f)) (prev, c1 :: c2 :: t)
  = [(Some c1, c2 :: t); (prev, c1 :: c2 :: t)].
Proof.
  intros H1 H2.
  change (run (Star (Class f)) (prev, c1 :: c2 :: t))
    with (star (run (Class f)) (S (S (length t))) (prev, c1 :: c2 :: t)).
  rewrite star_unfold, (run_class_hit f prev c1 (c2 :: t) H1).
  cbn [flat_map snd length].
  replace (S (length t) <? S (S (length t))) with true
    by (symmetry; apply Nat.ltb_lt; lia).
  rewrite star_stop by (simpl; by rewrite H2). reflexivity.
Qed.

Lemma app_nonempty_l {A} (l1 l2 : list A) : l1 <> [] -> l1 ++ l2 <> [].
Proof. by destruct l1. Qed.

Lemma quoted_or_matches pv post :
  run quoted_or_pattern (pv, txt "' OR '1'='1" ++ post) <> [].
Proof.
  unfold quoted_or_pattern, attackPatterns. cbn [nth].
  unfold lit, lit_ci, ws, Plus.
  cbn [fold_right txt list_ascii_of_string app].
  repeat first
    [ rewrite run_seq
    | rewrite run_class_hit by reflexivity
    | rewrite run_star_class_stop by reflexivity
    | rewrite run_star_class_one by reflexivity
    | rewrite app_nil_r
    | progress cbn [flat_map]
    | apply app_nonempty_l ].
  discriminate.
Qed.

(** X9.  [detectAttack] fires on every text that holds the injection
    string [' OR '1'='1], whatever surrounds it. *)
Theorem detectAttack_flags_quoted_or (pre post : list ascii) :
  detectAttack (JStr (pre ++ txt "' OR '1'='1" ++ post)) = true.
Proof.
  unfold detectAttack.
  destruct (pre ++ txt "' OR '1'='1" ++ post) as [|c t] eqn:E.
  { apply app_eq_nil in E as [_ E]. discriminate. }
  cbn [as_text]. rewrite <- E. apply existsb_exists.
  exists quoted_or_pattern. split.
  - unfold quoted_or_pattern, attackPatterns. cbn [nth].
    do 6 right. by left.
  - apply (test_from_app quoted_or_pattern pre _ None).
    intros pv. apply quoted_or_matches.
Qed.

End SanitizerPolicy.


(** * Further properties of the rate limiter *)

Section RateLimiterPolicy.
Import RateLimiter.
Local Open Scope Z_scope.

Implicit Types (st : gmap string AttemptRecord) (id : string).

(** X10.  [canAttempt] and [recordAttempt] leave the records of the
    other identifiers as they are. *)
Theorem other_identifiers_untouched st id id' (success : bool) (now : Z) :
  id <> id' ->
  snd (canAttempt id now st) !! id' = st !! id' /\
  snd (recordAttempt id success now st) !! id' = st !! id'.
Proof.
  intros Hne. split.
  - destruct (canAttempt_table st id now) as [->| ->]; [reflexivity|].
    by apply lookup_delete_ne.
  - destruct success.
    + rewrite recordAttempt_success. by apply lookup_delete_ne.
    + rewrite recordAttempt_failure. by apply lookup_insert_ne.
Qed.

Lemma other_identifiers_untouched_witness :
  let kept := {| count := 5; firstAttempt := 1000;
                 lockedUntil := Some 905000 |} in
  snd (canAttempt "login_store2" 6000 locked_table) !! "login_store1"
  = Some kept /\
  snd (recordAttempt "login_store2" false 6000 locked_table) !! "login_store1"
  = Some kept.
Proof.
  intros kept.
  apply (other_identifiers_untouched locked_table "login_store2" "login_store1"
           false 6000).
  discriminate.
Defined.

(** X11.  In every table the dashboard can reach a record counts at
    least one failure, carries [lockedUntil] exactly when its count has
    reached [maxAttempts], and is then locked until a time of at least
    [lockoutTime]. *)
Theorem reachable_records_are_consistent st id r :
  reachable st ->
  st !! id = Some r ->
  1 <= count r /\
  (is_Some (lockedUntil r) <-> maxAttempts <= count r) /\
  (forall t, lockedUntil r = Some t -> lockoutTime <= t).
Proof.
  intros Hreach Hr.
  destruct (reachable_ok st Hreach id r Hr) as [Hcount Hlock].
  split; [exact Hcount|]. destruct (lockedUntil r) as [t|].
  - destruct Hlock as [Hmax Ht]. split; [split; eauto|]. by intros ? [= <-].
  - split; [|discriminate]. split; [by intros [? [=]]|]. lia.
Qed.

Lemma reachable_records_are_consistent_witness :
  1 <= count (locked_record 1000 5000) /\
  (is_Some (lockedUntil (locked_record 1000 5000))
   <-> maxAttempts <= count (locked_record 1000 5000)) /\
  (forall t, lockedUntil (locked_record 1000 5000) = Some t -> lockoutTime <= t).
Proof.
  apply (reachable_records_are_consistent locked_table "login_store1").
  - exact locked_table_reachable.
  - reflexivity.
Defined.

(** [failures id ts]: failed attempts recorded one after the other, at the
    clock readings [ts]. *)
Fixpoint failures (id : string) (ts : list Z) : M unit :=
  match ts with
  | [] => mret tt
  | t :: ts' => recordAttempt id false t;; failures id ts'
  end.

Lemma failures_table id ts : forall st,
  snd (failures id ts st)
  = match ts with
    | [] => st
    | t :: ts' =>
        <[id := fold_left (fun r t' => after_failure t' (Some r)) ts'
                  (after_failure t (st !! id))]> st
    end.
Proof.
  induction ts as [|t ts IH]; intros st; [reflexivity|].
  cbn [failures]. unfold mbind, M_bind. rewrite recordAttempt_failure.
  rewrite IH. destruct ts as [|t' ts']; [reflexivity|].
  by rewrite lookup_insert_eq, insert_insert_eq.
Qed.

Lemma fold_failures r ts :
  lockedUntil r = None ->
  let r' := fold_left (fun r t' => after_failure t' (Some r)) ts r in
  count r' = count r + Z.of_nat (length ts) /\
  firstAttempt r' = firstAttempt r /\
  lockedUntil r'
  = match last ts with
    | Some t => if maxAttempts <=? count r' then Some (t + lockoutTime) else None
    | None => None
    end.
Proof.
  intros Hfree. induction ts as [|t ts IH] using rev_ind.
  - simpl. repeat split; [lia|assumption].
  - rewrite fold_left_app, last_snoc, length_app. cbn [fold_left length].
    destruct IH as (Hc & Hf & Hl). cbn zeta.
    set (r0 := fold_left _ ts r) in *.
    unfold after_failure. cbn [count firstAttempt lockedUntil].
    repeat split; [lia|assumption|].
    destruct (maxAttempts <=? count r0 + 1) eqn:E; [reflexivity|].
    rewrite Hl. destruct (last ts); [|reflexivity].
    destruct (maxAttempts <=? count r0) eqn:E'; [|reflexivity].
    apply Z.leb_le in E'. apply Z.leb_gt in E. lia.
Qed.

(** X12.  After [n] failed attempts in a row on an identifier that had no
    record, made at clock readings that are not before the epoch,
    [getAttemptsLeft] answers [max 0 (5 - n)], and [canAttempt] answers
    [true] exactly when [n < 5] or the lockout started by the last failure
    has run out. *)
Theorem after_n_failures st id (ts : list Z) (now : Z) :
  st !! id = None ->
  Forall (fun t => 0 <= t) ts ->
  let st' := snd (failures id ts st) in
  let n := Z.of_nat (length ts) in
  fst (getAttemptsLeft id st') = Z.max 0 (maxAttempts - n) /\
  fst (canAttempt id now st')
  = (n <? maxAttempts)
    || match last ts with
       | Some t => t + lockoutTime <=? now
       | None => true
       end.
Proof.
  intros Hfresh Hts. cbn zeta. rewrite failures_table.
  rewrite getAttemptsLeft_eq, canAttempt_eq. cbn [fst].
  destruct ts as [|t ts]; [by rewrite Hfresh|].
  rewrite lookup_insert_eq, Hfresh.
  destruct (fold_failures (after_failure t None) ts eq_refl) as (Hc & _ & Hl).
  set (r := fold_left _ ts (after_failure t None)) in *.
  change (count (after_failure t None)) with 1 in Hc.
  replace (Z.of_nat (length (t :: ts))) with (count r)
    by (rewrite Hc; cbn [length]; lia).
  split; [reflexivity|].
  rewrite last_cons. unfold locked_and.
  destruct (last ts) as [t'|] eqn:Elast; cbn [last] in Hl; rewrite ?Elast in Hl.
  - assert (0 <= t') as Ht'.
    { apply last_Some_elem_of in Elast. rewrite Forall_forall in Hts.
      apply Hts. by right. }
    destruct (maxAttempts <=? count r) eqn:Hmax.
    + rewrite Hl. unfold lockoutTime in *. apply Z.leb_le in Hmax.
      replace (count r <? maxAttempts) with false
        by (symmetry; apply Z.ltb_ge; lia).
      replace (t' + 15 * 60 * 1000 =? 0) with false
        by (symmetry; apply Z.eqb_neq; lia).
      cbn [negb andb orb].
      destruct (now <? t' + 15 * 60 * 1000) eqn:E1.
      * apply Z.ltb_lt in E1. cbn [fst]. symmetry. apply Z.leb_gt. lia.
      * apply Z.ltb_ge in E1.
        replace (t' + 15 * 60 * 1000 <=? now) with true
          by (symmetry; apply Z.leb_le; lia).
        reflexivity.
    + rewrite Hl. cbn [fst]. apply Z.leb_gt in Hmax.
      replace (count r <? maxAttempts) with true
        by (symmetry; apply Z.ltb_lt; lia).
      reflexivity.
  - rewrite Hl. cbn [fst]. apply last_None in Elast. subst ts.
    cbn [length] in Hc.
    replace (count r <? maxAttempts) with true
      by (symmetry; apply Z.ltb_lt; unfold maxAttempts; lia).
    reflexivity.
Qed.

Lemma after_n_failures_witness :
  let st' := snd (failures "login_store1" [1000; 2000; 3000; 4000] ∅) in
  fst (getAttemptsLeft "login_store1" st') = Z.max 0 (maxAttempts - 4) /\
  fst (canAttempt "login_store1" 5000 st')
  = (4 <? maxAttempts) || (4000 + lockoutTime <=? 5000).
Proof.
  apply (after_n_failures ∅ "login_store1" [1000; 2000; 3000; 4000] 5000).
  - reflexivity.
  - repeat constructor; lia.
Defined.

Lemma getRemainingTime_eq st id now :
  getRemainingTime id now st
  = (match st !! id with
     | Some r =>
         match lockedUntil r with
         | Some t =>
             if t =? 0 then 0
             else if 0 <? t - now then ceil_minutes (t - now) else 0
         | None => 0
         end
     | None => 0
     end, st).
Proof.
  unfold getRemainingTime, mbind, M_bind, mret, M_ret, read. simpl.
  destruct (st !! id) as [r|]; [|reflexivity].
  destruct (lockedUntil r) as [t|]; [|reflexivity].
  destruct (t =? 0); [reflexivity|].
  destruct (0 <? t - now); reflexivity.
Qed.

Lemma ceil_minutes_bounds remaining :
  0 < remaining <= lockoutTime -> 1 <= ceil_minutes remaining <= 15.
Proof.
  unfold ceil_minutes, lockoutTime. intros H. split.
  - apply Z.div_le_lower_bound; lia.
  - apply Z.lt_succ_r, Z.div_lt_upper_bound; lia.
Qed.

(** X13.  In a table the dashboard can reach, whenever [canAttempt]
    refuses an identifier it leaves the table as it is, no attempt is
    left and the remaining time is at least one minute. *)
Theorem refusal_means_locked st id (now : Z) :
  reachable st ->
  fst (canAttempt id now st) = false ->
  snd (canAttempt id now st) = st /\
  fst (getAttemptsLeft id st) = 0 /\
  1 <= fst (getRemainingTime id now st).
Proof.
  intros Hreach. rewrite canAttempt_eq, getAttemptsLeft_eq, getRemainingTime_eq.
  pose proof (reachable_ok st Hreach id) as Hok.
  destruct (st !! id) as [r|]; [|discriminate].
  destruct (Hok r eq_refl) as [Hcount Hlock]. clear Hok.
  unfold locked_and, maxAttempts, lockoutTime in *.
  destruct (lockedUntil r) as [t|].
  - destruct Hlock as [Hmax Ht].
    replace (t =? 0) with false by (symmetry; apply Z.eqb_neq; lia).
    cbn [negb andb].
    destruct (now <? t) eqn:E1.
    + intros _. apply Z.ltb_lt in E1. cbn [fst snd].
      replace (0 <? t - now) with true by (symmetry; apply Z.ltb_lt; lia).
      repeat split; [lia|].
      unfold ceil_minutes. apply Z.div_le_lower_bound; lia.
    + apply Z.ltb_ge in E1.
      replace (t <=? now) with true by (symmetry; apply Z.leb_le; lia).
      discriminate.
  - cbn [fst]. intros H. apply Z.ltb_ge in H. lia.
Qed.

Lemma refusal_means_locked_witness :
  snd (canAttempt "login_store1" 6000 locked_table) = locked_table /\
  fst (getAttemptsLeft "login_store1" locked_table) = 0 /\
  1 <= fst (getRemainingTime "login_store1" 6000 locked_table).
Proof.
  apply refusal_means_locked.
  - exact locked_table_reachable.
  - reflexivity.
Defined.

(** X14.  A failure recorded on a record that already counts four
    failures or more starts the lockout at that instant: for the next
    fifteen minutes [canAttempt] refuses and [getRemainingTime] answers
    between 1 and 15 minutes. *)
Theorem failure_at_limit_starts_lockout st id r (t0 now : Z) :
  st !! id = Some r ->
  4 <= count r ->
  0 <= t0 ->
  t0 <= now < t0 + lockoutTime ->
  let st' := snd (recordAttempt id false t0 st) in
  st' !! id
  = Some {| count := count r + 1; firstAttempt := firstAttempt r;
            lockedUntil := Some (t0 + lockoutTime) |} /\
  fst (canAttempt id now st') = false /\
  1 <= fst (getRemainingTime id now st') <= 15.
Proof.
  intros Hr Hcount Ht0 Hnow. cbn zeta.
  rewrite recordAttempt_failure. cbn [snd].
  rewrite canAttempt_eq, getRemainingTime_eq, lookup_insert_eq, Hr.
  unfold after_failure, locked_and. cbn [count firstAttempt lockedUntil fst].
  replace (maxAttempts <=? count r + 1) with true
    by (symmetry; apply Z.leb_le; unfold maxAttempts; lia).
  cbn [lockedUntil].
  replace (t0 + lockoutTime =? 0) with false
    by (symmetry; apply Z.eqb_neq; unfold lockoutTime; lia).
  replace (now <? t0 + lockoutTime) with true
    by (symmetry; apply Z.ltb_lt; lia).
  replace (0 <? t0 + lockoutTime - now) with true
    by (symmetry; apply Z.ltb_lt; lia).
  repeat split; apply ceil_minutes_bounds; lia.
Qed.

Lemma failure_at_limit_starts_lockout_witness :
  let st := snd (failures "login_store1" [1000; 2000; 3000; 4000] ∅) in
  let st' := snd (recordAttempt "login_store1" false 5000 st) in
  st' !! "login_store1"
  = Some {| count := 4 + 1; firstAttempt := 1000;
            lockedUntil := Some (5000 + lockoutTime) |} /\
  fst (canAttempt "login_store1" 5000 st') = false /\
  1 <= fst (getRemainingTime "login_store1" 5000 st') <= 15.
Proof.
  intros st.
  apply (failure_at_limit_starts_lockout st "login_store1"
           {| count := 4; firstAttempt := 1000; lockedUntil := None |}
           5000 5000).
  - reflexivity.
  - simpl. lia.
  - lia.
  - unfold lockoutTime. lia.
Defined.

(** A record that is neither locked nor expired at some instant carries
    no lock at all. *)
Lemma not_locked_at_all r (now : Z) (f : Z -> bool) :
  locked_and (fun t => now <? t) r = false ->
  locked_and (fun t => t <=? now) r = false ->
  locked_and f r = false.
Proof.
  unfold locked_and. destruct (lockedUntil r) as [t|]; [|reflexivity].
  destruct (t =? 0); [reflexivity|]. cbn [negb andb].
  intros H1 H2. apply Z.ltb_ge in H1. apply Z.leb_gt in H2. lia.
Qed.

(** X15.  Once [canAttempt] has allowed an identifier it goes on allowing
    it, at every clock reading, and changes nothing more, until another
    attempt is recorded. *)
Theorem allowance_is_stable st id (now now' : Z) :
  fst (canAttempt id now st) = true ->
  let st' := snd (canAttempt id now st) in
  canAttempt id now' st' = (true, st').
Proof.
  cbn zeta. rewrite (canAttempt_eq st id now).
  destruct (st !! id) as [r|] eqn:Hr.
  - destruct (locked_and (fun t => now <? t) r) eqn:H1; [discriminate|].
    destruct (locked_and (fun t => t <=? now) r) eqn:H2; cbn [fst snd].
    + intros _. by rewrite canAttempt_eq, lookup_delete_eq.
    + intros Hc. rewrite canAttempt_eq, Hr.
      rewrite !(not_locked_at_all r now _ H1 H2). by rewrite Hc.
  - intros _. cbn [snd]. by rewrite canAttempt_eq, Hr.
Qed.

Lemma allowance_is_stable_witness :
  let st' := snd (canAttempt "login_store1" 905000 locked_table) in
  canAttempt "login_store1" 0 st' = (true, st').
Proof.
  apply (allowance_is_stable locked_table "login_store1" 905000 0).
  reflexivity.
Defined.

(** X16.  A recorded success resets the identifier, whatever the table
    held: [canAttempt] allows it, five attempts are left and no time
    remains. *)
Theorem success_resets st id (t now : Z) :
  let st' := snd (recordAttempt id true t st) in
  canAttempt id now st' = (true, st') /\
  getAttemptsLeft id st' = (maxAttempts, st') /\
  getRemainingTime id now st' = (0, st').
Proof.
  cbn zeta. rewrite recordAttempt_success. cbn [snd].
  rewrite canAttempt_eq, getAttemptsLeft_eq, getRemainingTime_eq.
  by rewrite lookup_delete_eq.
Qed.

End RateLimiterPolicy.


(** * Further properties of the session handlers *)

Section SessionFacts.
Import Text Regex SecurityUtils RateLimiter AdminDashboard Session.
Local Open Scope Z_scope.

Implicit Types (d : Dashboard) (projectId : string).

(** [canAttempt] changes the table only when it allows the attempt. *)
Lemma canAttempt_refusal_table (st : gmap string AttemptRecord) id now :
  fst (canAttempt id now st) = false -> snd (canAttempt id now st) = st.
Proof.
  rewrite canAttempt_eq. destruct (st !! id) as [r|]; [|discriminate].
  destruct (locked_and _ r); [reflexivity|].
  destruct (locked_and _ r); [discriminate|reflexivity].
Qed.

(** The handler, case by case. *)
Ltac error_cases c :=
  rewrite recordAttempt_failure; cbn [attempts setAttempts call];
  rewrite getAttemptsLeft_eq;
  destruct (is_credential_code c);
  [|destruct (String.eqb c "auth/invalid-email");
    [|destruct (String.eqb c "auth/too-many-requests")]];
  match goal with
  | |- context [if ?b then _ else _] => destruct b eqn:Hleft
  end.

Ltac outcome_cases :=
  match goal with
  | |- context [match ?o with SignInOk => _ | SignInError _ => _ end] =>
      let c := fresh "errorCode" in
      destruct o as [|c]; [rewrite recordAttempt_success|error_cases c]
  end.

Ltac login_cases projectId now1 now2 d :=
  unfold handleLogin, limiter; cbn [attempts setAuthError];
  destruct (canAttempt (identifier projectId) now1 (attempts d))
    as [[|] st1] eqn:Hcan; cbn [negb];
  [ match goal with
    | |- context [detectAttack ?e || detectAttack ?p] =>
        destruct (detectAttack e || detectAttack p) eqn:Hattack
    end;
    [ rewrite recordAttempt_failure | outcome_cases ]
  | rewrite getRemainingTime_eq ];
  cbn.

(** The provider is called at most once, and only for an attempt that is
    allowed and raises no alarm. *)
Lemma handleLogin_calls projectId (email password : list ascii)
    (outcome : SignInOutcome) (now1 now2 : Z) d :
  calls (handleLogin projectId email password outcome now1 now2 d)
  = if fst (canAttempt (identifier projectId) now1 (attempts d))
       && negb (detectAttack (JStr email) || detectAttack (JStr password))
    then calls d
         ++ [SignInWithEmailAndPassword (sanitizeEmail (JStr email)) password]
    else calls d.
Proof.
  login_cases projectId now1 now2 d; reflexivity.
Qed.

(** A rejected sign-in is counted, and the count that reaches the limit
    locks the form. *)
Lemma handleLogin_error projectId (email password : list ascii) code
    (now1 now2 : Z) d :
  let id := identifier projectId in
  let st := snd (canAttempt id now1 (attempts d)) in
  fst (canAttempt id now1 (attempts d)) = true ->
  detectAttack (JStr email) || detectAttack (JStr password) = false ->
  let d' := handleLogin projectId email password (SignInError code)
              now1 now2 d in
  attempts d' = <[id := after_failure now2 (st !! id)]> st /\
  (maxAttempts <= count (after_failure now2 (st !! id)) ->
   isLocked d' = true /\ lockoutMinutes d' = 15).
Proof.
  cbn zeta. intros Hallowed Hquiet.
  unfold handleLogin, limiter; cbn [attempts setAuthError].
  destruct (canAttempt (identifier projectId) now1 (attempts d))
    as [[|] st1] eqn:Hcan; cbn [negb]; [|discriminate].
  rewrite Hquiet. error_cases code; cbn; auto;
    (split; [reflexivity|]); intros Hmax; exfalso;
    rewrite lookup_insert_eq in Hleft; cbn in Hleft;
    apply Z.eqb_neq in Hleft; unfold maxAttempts in *; lia.
Qed.

(** X17.  Whatever it is given, [handleLogin] leaves the session state,
    the user, the ownership flag and [localStorage] as they are, never
    clears [isLocked], and calls the credential provider at most once:
    exactly when [canAttempt] allowed the attempt and [detectAttack]
    fired on neither the email nor the password, with the sanitized email
    and the password as typed. *)
Theorem handleLogin_frame projectId (email password : list ascii)
    (outcome : SignInOutcome) (now1 now2 : Z) d :
  let d' := handleLogin projectId email password outcome now1 now2 d in
  authMode d' = authMode d /\
  user d' = user d /\
  isOwner d' = isOwner d /\
  localStorage d' = localStorage d /\
  (isLocked d = true -> isLocked d' = true) /\
  calls d'
  = if fst (canAttempt (identifier projectId) now1 (attempts d))
       && negb (detectAttack (JStr email) || detectAttack (JStr password))
    then calls d
         ++ [SignInWithEmailAndPassword (sanitizeEmail (JStr email)) password]
    else calls d.
Proof.
  cbn zeta. login_cases projectId now1 now2 d; auto 10.
Qed.

(** X18.  When [canAttempt] refuses, [handleLogin] changes nothing in the
    table, shows the lock with the remaining minutes, and calls no one. *)
Theorem handleLogin_refused projectId (email password : list ascii)
    (outcome : SignInOutcome) (now1 now2 : Z) d :
  fst (canAttempt (identifier projectId) now1 (attempts d)) = false ->
  let d' := handleLogin projectId email password outcome now1 now2 d in
  let minutes :=
    fst (getRemainingTime (identifier projectId) now2 (attempts d)) in
  attempts d' = attempts d /\
  isLocked d' = true /\
  lockoutMinutes d' = minutes /\
  authError d' = LockedOut minutes /\
  calls d' = calls d.
Proof.
  intros Hrefused. cbn zeta.
  pose proof (canAttempt_refusal_table _ _ _ Hrefused) as Htable.
  rewrite getRemainingTime_eq. cbn [fst].
  login_cases projectId now1 now2 d; cbn in *; try discriminate.
  subst st1. auto.
Qed.

Lemma handleLogin_refused_witness :
  let d := setAttempts locked_table (setAuthMode Login initial) in
  let d' := handleLogin "store1" (txt "a@b.c") (txt "pw") SignInOk 6000 6001 d in
  let minutes :=
    fst (getRemainingTime (identifier "store1") 6001 (attempts d)) in
  attempts d' = attempts d /\
  isLocked d' = true /\
  lockoutMinutes d' = minutes /\
  authError d' = LockedOut minutes /\
  calls d' = calls d.
Proof.
  intros d.
  apply (handleLogin_refused "store1" (txt "a@b.c") (txt "pw") SignInOk
           6000 6001 d).
  reflexivity.
Defined.

(** X19.  An attempt that is allowed and raises no alarm is passed to
    the provider, and its outcome is recorded: a success deletes the
    record of the identifier and leaves no message; an error is counted
    as one more failure, and when that failure brings the count to
    [maxAttempts] the form is locked with fifteen minutes shown. *)
Theorem handleLogin_records_outcome projectId (email password : list ascii)
    (outcome : SignInOutcome) (now1 now2 : Z) d :
  let id := identifier projectId in
  let st := snd (canAttempt id now1 (attempts d)) in
  fst (canAttempt id now1 (attempts d)) = true ->
  detectAttack (JStr email) || detectAttack (JStr password) = false ->
  let d' := handleLogin projectId email password outcome now1 now2 d in
  match outcome with
  | SignInOk =>
      attempts d' = delete id st /\ authError d' = NoMessage
      /\ isLocked d' = isLocked d
  | SignInError _ =>
      attempts d' = <[id := after_failure now2 (st !! id)]> st /\
      (maxAttempts <= count (after_failure now2 (st !! id)) ->
       isLocked d' = true /\ lockoutMinutes d' = 15)
  end.
Proof.
  cbn zeta. intros Hallowed Hquiet.
  login_cases projectId now1 now2 d; cbn in *; try discriminate;
    try rewrite Hquiet in *; try discriminate; auto;
    (split; [reflexivity|]); intros Hmax; exfalso;
    rewrite lookup_insert_eq in Hleft; cbn in Hleft;
    apply Z.eqb_neq in Hleft; unfold maxAttempts in *; lia.
Qed.

Lemma handleLogin_records_outcome_witness :
  let d := setAttempts (snd (failures "login_store1" [1000; 2000; 3000; 4000] ∅))
             (setAuthMode Login initial) in
  let d' := handleLogin "store1" (txt "a@b.c") (txt "pw")
              (SignInError "auth/wrong-password") 5000 5001 d in
  attempts d'
  = <[identifier "store1" :=
        after_failure 5001 (attempts d !! identifier "store1")]> (attempts d) /\
  (maxAttempts
   <= count (after_failure 5001 (attempts d !! identifier "store1")) ->
   isLocked d' = true /\ lockoutMinutes d' = 15).
Proof.
  intros d.
  apply (handleLogin_records_outcome "store1" (txt "a@b.c") (txt "pw")
           (SignInError "auth/wrong-password") 5000 5001 d).
  - reflexivity.
  - vm_compute. reflexivity.
Defined.

(** *** Five failed sign-ins *)

(** An identifier with no record, or with an open record below the limit,
    is allowed and the table stays as it is. *)
Definition open_record (found : option AttemptRecord) : Prop :=
  match found with
  | None => True
  | Some r => lockedUntil r = None /\ count r < maxAttempts
  end.

Lemma canAttempt_open (st : gmap string AttemptRecord) id now :
  open_record (st !! id) -> canAttempt id now st = (true, st).
Proof.
  rewrite canAttempt_eq. destruct (st !! id) as [r|]; [|reflexivity].
  intros [Hlock Hcount]. unfold locked_and. rewrite Hlock.
  by apply Z.ltb_lt in Hcount as ->.
Qed.

(** One sign-in that the provider rejects. *)
Lemma failed_login_step projectId (email password : list ascii) code
    (now1 now2 : Z) d :
  let id := identifier projectId in
  open_record (attempts d !! id) ->
  detectAttack (JStr email) || detectAttack (JStr password) = false ->
  let d' := handleLogin projectId email password (SignInError code)
              now1 now2 d in
  attempts d' = <[id := after_failure now2 (attempts d !! id)]> (attempts d) /\
  calls d'
  = calls d ++ [SignInWithEmailAndPassword (sanitizeEmail (JStr email)) password] /\
  (maxAttempts <= count (after_failure now2 (attempts d !! id)) ->
   isLocked d' = true).
Proof.
  cbn zeta. intros Hopen Hquiet.
  pose proof (canAttempt_open _ _ now1 Hopen) as Hcan.
  pose proof (handleLogin_calls projectId email password (SignInError code)
                now1 now2 d) as Hcalls.
  pose proof (handleLogin_error projectId email password code
                now1 now2 d) as Hrec.
  cbn zeta in Hrec. rewrite Hcan in *. cbn [fst snd] in *.
  rewrite Hquiet in Hcalls. cbn [negb andb] in Hcalls.
  destruct (Hrec eq_refl Hquiet) as [Htable Hlock].
  repeat split; [assumption..|]. intros Hmax. by apply Hlock.
Qed.

(** X20.  Starting from an identifier with no record, five sign-ins that
    the provider rejects reach the provider, five times in all, and lock
    the form; a sixth attempt made before the lockout has run out is not
    passed to the provider, whatever credentials it carries.  The clock
    reading of the fifth failure is taken after the epoch: a lockout that
    ends at time 0 is read as no lockout. *)
Theorem sixth_login_is_not_sent projectId (email password : list ascii)
    (c1 c2 c3 c4 c5 : string) (a1 b1 a2 b2 a3 b3 a4 b4 a5 b5 : Z)
    (email' password' : list ascii) (outcome : SignInOutcome)
    (now1 now2 : Z) d :
  attempts d !! identifier projectId = None ->
  detectAttack (JStr email) || detectAttack (JStr password) = false ->
  0 <= b5 -> now1 < b5 + lockoutTime ->
  let fail code a b d :=
    handleLogin projectId email password (SignInError code) a b d in
  let d5 := fail c5 a5 b5 (fail c4 a4 b4 (fail c3 a3 b3
              (fail c2 a2 b2 (fail c1 a1 b1 d)))) in
  calls d5
  = calls d
    ++ repeat (SignInWithEmailAndPassword (sanitizeEmail (JStr email)) password) 5 /\
  isLocked d5 = true /\
  calls (handleLogin projectId email' password' outcome now1 now2 d5) = calls d5.
Proof.
  intros Hfresh Hquiet Hpos Hnow. cbn zeta.
  destruct (failed_login_step projectId email password c1 a1 b1 d)
    as (Ht1 & Hc1 & _); [by rewrite Hfresh|assumption|].
  rewrite Hfresh in Ht1.
  set (d1 := handleLogin _ _ _ (SignInError c1) _ _ d) in *.
  destruct (failed_login_step projectId email password c2 a2 b2 d1)
    as (Ht2 & Hc2 & _);
    [rewrite Ht1, lookup_insert_eq; split; [reflexivity|cbn; unfold maxAttempts; lia]
    |assumption|].
  rewrite Ht1, lookup_insert_eq, insert_insert_eq in Ht2.
  set (d2 := handleLogin _ _ _ (SignInError c2) _ _ d1) in *.
  destruct (failed_login_step projectId email password c3 a3 b3 d2)
    as (Ht3 & Hc3 & _);
    [rewrite Ht2, lookup_insert_eq; split; [reflexivity|cbn; unfold maxAttempts; lia]
    |assumption|].
  rewrite Ht2, lookup_insert_eq, insert_insert_eq in Ht3.
  set (d3 := handleLogin _ _ _ (SignInError c3) _ _ d2) in *.
  destruct (failed_login_step projectId email password c4 a4 b4 d3)
    as (Ht4 & Hc4 & _);
    [rewrite Ht3, lookup_insert_eq; split; [reflexivity|cbn; unfold maxAttempts; lia]
    |assumption|].
  rewrite Ht3, lookup_insert_eq, insert_insert_eq in Ht4.
  set (d4 := handleLogin _ _ _ (SignInError c4) _ _ d3) in *.
  destruct (failed_login_step projectId email password c5 a5 b5 d4)
    as (Ht5 & Hc5 & Hlock);
    [rewrite Ht4, lookup_insert_eq; split; [reflexivity|cbn; unfold maxAttempts; lia]
    |assumption|].
  rewrite Ht4, lookup_insert_eq, insert_insert_eq in Ht5.
  rewrite Ht4, lookup_insert_eq in Hlock.
  set (d5 := handleLogin _ _ _ (SignInError c5) _ _ d4) in *.
  split; [|split].
  - rewrite Hc5, Hc4, Hc3, Hc2, Hc1, <- !app_assoc. reflexivity.
  - apply Hlock. cbn. unfold maxAttempts. lia.
  - rewrite handleLogin_calls.
    rewrite canAttempt_eq, Ht5, lookup_insert_eq.
    unfold locked_and.
    match goal with
    | |- context [lockedUntil ?r] =>
        change (lockedUntil r) with (Some (b5 + lockoutTime))
    end.
    cbn beta iota. apply Z.ltb_lt in Hnow. rewrite Hnow.
    assert ((b5 + lockoutTime =? 0) = false) as ->
      by (apply Z.eqb_neq; unfold lockoutTime; lia).
    reflexivity.
Qed.

Lemma sixth_login_is_not_sent_witness :
  let d := setAuthMode Login initial in
  let fail code a b d :=
    handleLogin "store1" (txt "a@b.c") (txt "guess")
      (SignInError code) a b d in
  let d5 := fail "auth/wrong-password" 5000 5001
              (fail "auth/wrong-password" 4000 4001
                (fail "auth/wrong-password" 3000 3001
                  (fail "auth/wrong-password" 2000 2001
                    (fail "auth/wrong-password" 1000 1001 d)))) in
  calls d5
  = calls d
    ++ repeat (SignInWithEmailAndPassword
                 (sanitizeEmail (JStr (txt "a@b.c"))) (txt "guess")) 5 /\
  isLocked d5 = true /\
  calls (handleLogin "store1" (txt "a@b.c") (txt "right") SignInOk
           6000 6001 d5)
  = calls d5.
Proof.
  intros d.
  apply (sixth_login_is_not_sent "store1" (txt "a@b.c") (txt "guess")
           "auth/wrong-password" "auth/wrong-password" "auth/wrong-password"
           "auth/wrong-password" "auth/wrong-password"
           1000 1001 2000 2001 3000 3001 4000 4001 5000 5001
           (txt "a@b.c") (txt "right") SignInOk 6000 6001 d).
  - reflexivity.
  - vm_compute. reflexivity.
  - lia.
  - unfold lockoutTime. lia.
Defined.

(** *** The auth-state callback *)

(** Does the callback open the dashboard?  A verifier call that fails and
    the document [null], on which the property read throws, both do; any
    other document does when its [isOwner] is the boolean [true]. *)
Definition grants (outcome : VerifierOutcome) : bool :=
  match outcome with
  | VerifierFails => true
  | VerifierResponds JsNull => true
  | VerifierResponds data => is_true (read_isOwner data)
  end.

Ltac callback_cases firebaseUser outcome :=
  let u := fresh "u" in
  let data := fresh "data" in
  let fields := fresh "fields" in
  destruct firebaseUser as [u|];
  [destruct outcome as [|data];
   [|destruct data as [| [|] | | | |fields];
     [..|unfold onAuthStateChanged, grants, read_isOwner;
         destruct (field "isOwner" fields) as [[| [|] | | | |]|]]]|];
  cbn.

(** X21.  The auth-state callback sets [user] to what the provider
    reports and decides the state from the verifier alone: with a user,
    the session is authenticated with [isOwner] set when the verifier call
    fails, answers [null], or answers a document whose [isOwner] is the
    boolean [true], and not-owner in every other case; without a user it
    is the login state.  The verifier is asked once per reported user,
    the payment check is started exactly when access is granted, a denial
    and a sign-out leave [localStorage] as it is, and the rate limiter
    table, the lock and the message are never touched. *)
Theorem onAuthStateChanged_effect projectId (firebaseUser : option User)
    (outcome : VerifierOutcome) d :
  let d' := onAuthStateChanged projectId firebaseUser outcome d in
  (attempts d' = attempts d /\ isLocked d' = isLocked d /\
   lockoutMinutes d' = lockoutMinutes d /\ authError d' = authError d) /\
  user d' = firebaseUser /\
  match firebaseUser with
  | None =>
      authMode d' = Login /\ isOwner d' = false /\
      calls d' = calls d /\ localStorage d' = localStorage d
  | Some u =>
      if grants outcome then
        authMode d' = Authenticated /\ isOwner d' = true /\
        calls d'
        = calls d ++ [VerifyProjectOwner (uid u) projectId; CheckStripeConnect] /\
        localStorage d' !! "userId"%string = Some (uid u)
      else
        authMode d' = NotOwner /\ isOwner d' = false /\
        calls d' = calls d ++ [VerifyProjectOwner (uid u) projectId] /\
        localStorage d' = localStorage d
  end.
Proof.
  cbn zeta. callback_cases firebaseUser outcome;
    rewrite <- ?app_assoc; repeat split;
    rewrite ?lookup_insert_ne by done; by rewrite ?lookup_insert_eq.
Qed.

(** *** Invariants of a session *)

Definition is_authenticated (m : AuthMode) : bool :=
  match m with Authenticated => true | _ => false end.

Definition present {A} (x : option A) : bool :=
  match x with Some _ => true | None => false end.

(** The key [projectId] of [localStorage], when set, holds the project
    id of the page, next to a [userId]. *)
Definition storage_ok (projectId : string) (storage : gmap string string)
  : bool :=
  match storage !! "projectId"%string with
  | Some v => String.eqb v projectId && present (storage !! "userId"%string)
  | None => true
  end.

(** [isOwner] is set exactly in the authenticated state, and the storage
    is as [storage_ok] says. *)
Definition consistent (projectId : string) (d : Dashboard) : bool :=
  Bool.eqb (isOwner d) (is_authenticated (authMode d))
  && storage_ok projectId (localStorage d).

(** What [handleLogin] leaves alone. *)
Lemma handleLogin_fields projectId (email password : list ascii)
    (outcome : SignInOutcome) (now1 now2 : Z) d :
  let d' := handleLogin projectId email password outcome now1 now2 d in
  authMode d' = authMode d /\ user d' = user d /\ isOwner d' = isOwner d /\
  localStorage d' = localStorage d /\
  (isLocked d = true -> isLocked d' = true).
Proof.
  cbn zeta. login_cases projectId now1 now2 d; auto 10.
Qed.

(** What [checkLockout] leaves alone. *)
Lemma checkLockout_fields projectId (now1 now2 : Z) d :
  let d' := checkLockout projectId now1 now2 d in
  authMode d' = authMode d /\ user d' = user d /\ isOwner d' = isOwner d /\
  localStorage d' = localStorage d /\ authError d' = authError d /\
  calls d' = calls d /\
  (isLocked d = true -> isLocked d' = true).
Proof.
  cbn zeta. unfold checkLockout, limiter.
  destruct (canAttempt (identifier projectId) now1 (attempts d))
    as [[|] st1]; cbn [negb]; [by repeat split|].
  rewrite getRemainingTime_eq. by repeat split.
Qed.

(** The segments make up the handlers: a handler run with nothing in
    between is its segments one after the other. *)
Lemma onAuthStateChanged_segments projectId (firebaseUser : option User)
    (outcome : VerifierOutcome) d :
  onAuthStateChanged projectId firebaseUser outcome d
  = match firebaseUser with
    | Some u =>
        callbackResumes projectId u outcome
          (callbackStarts projectId firebaseUser d)
    | None => callbackStarts projectId firebaseUser d
    end.
Proof. by destruct firebaseUser. Qed.

Lemma handleLogin_segments projectId (email password : list ascii)
    (outcome : SignInOutcome) (now1 now2 : Z) d :
  handleLogin projectId email password outcome now1 now2 d
  = let (d1, waits) := loginStarts projectId email password now1 now2 d in
    if waits then loginResumes projectId outcome now2 d1 else d1.
Proof.
  unfold handleLogin, loginStarts, loginResumes, limiter.
  cbn [attempts setAuthError].
  destruct (canAttempt (identifier projectId) now1 (attempts d))
    as [[|] st1]; cbn [negb].
  - destruct (detectAttack (JStr email) || detectAttack (JStr password));
      [by destruct (recordAttempt _ _ _ _)|reflexivity].
  - by destruct (getRemainingTime _ _ _).
Qed.

(** What the two halves of [handleLogin] leave alone. *)
Lemma loginStarts_fields projectId (email password : list ascii)
    (now1 now2 : Z) d :
  let d' := fst (loginStarts projectId email password now1 now2 d) in
  authMode d' = authMode d /\ isOwner d' = isOwner d /\
  localStorage d' = localStorage d /\
  (isLocked d = true -> isLocked d' = true).
Proof.
  cbn zeta. unfold loginStarts, limiter. cbn [attempts setAuthError].
  destruct (canAttempt (identifier projectId) now1 (attempts d))
    as [[|] st1]; cbn [negb].
  - destruct (detectAttack (JStr email) || detectAttack (JStr password));
      [rewrite recordAttempt_failure|]; by repeat split.
  - rewrite getRemainingTime_eq. by repeat split.
Qed.

Lemma loginResumes_fields projectId (outcome : SignInOutcome) (now : Z) d :
  let d' := loginResumes projectId outcome now d in
  authMode d' = authMode d /\ isOwner d' = isOwner d /\
  localStorage d' = localStorage d /\
  (isLocked d = true -> isLocked d' = true).
Proof.
  cbn zeta. unfold loginResumes, limiter.
  destruct outcome as [|c];
    [rewrite recordAttempt_success; by repeat split|].
  error_cases c; cbn; auto.
Qed.

Lemma run_segment_consistent projectId segment d :
  consistent projectId d = true ->
  consistent projectId (run_segment projectId segment d) = true.
Proof.
  unfold consistent. intros H.
  destruct segment as [firebaseUser|u outcome|email password now1 now2
                      |outcome now|outcome|now1 now2]; cbn [run_segment].
  - destruct firebaseUser as [u|]; [exact H|].
    apply andb_prop in H as [_ Hstorage]. exact Hstorage.
  - apply andb_prop in H as [_ Hstorage]. revert Hstorage.
    unfold storage_ok, callbackResumes.
    destruct outcome as [|data];
      [|destruct data as [| [|] | | | |fields];
        [..|unfold read_isOwner;
            destruct (field "isOwner" fields) as [[| [|] | | | |]|]]];
      cbn; intros Hstorage;
      rewrite ?lookup_insert_eq, ?String.eqb_refl;
      rewrite ?lookup_insert_ne by done; rewrite ?lookup_insert_eq;
      try reflexivity; try exact Hstorage.
    all: destruct (localStorage d !! "projectId"%string) as [v|];
      [|reflexivity]; apply andb_prop in Hstorage as [-> _]; reflexivity.
  - destruct (loginStarts_fields projectId email password now1 now2 d)
      as (-> & -> & -> & _). exact H.
  - destruct (loginResumes_fields projectId outcome now d)
      as (-> & -> & -> & _). exact H.
  - destruct outcome; [|exact H]. cbn.
    apply andb_prop in H as [-> _]. unfold storage_ok.
    by rewrite lookup_delete_eq.
  - destruct (checkLockout_fields projectId now1 now2 d)
      as (-> & _ & -> & -> & _). exact H.
Qed.

(** X22.  The handlers of the session keep it consistent, in whatever
    order their segments run, a handler that resumes after other handlers
    have run included: [isOwner] is set exactly in the authenticated
    state, and the key [projectId] of [localStorage], when present, holds
    the project id of the page and comes with a [userId]. *)
Theorem interleaved_session_stays_consistent projectId
    (segments : list Segment) d :
  consistent projectId d = true ->
  consistent projectId (run_segments projectId segments d) = true.
Proof.
  unfold run_segments. revert d.
  induction segments as [|segment segments IH]; intros d H; [exact H|].
  cbn [fold_left]. by apply IH, run_segment_consistent.
Qed.

Lemma interleaved_session_stays_consistent_witness :
  consistent "store1"
    (run_session "store1" true
       [CallbackStarts (Some {| uid := "u1" |});
        CallbackStarts None;
        LoginStarts (txt "a@b.c") (txt "pw") 1000 1001;
        CallbackResumes {| uid := "u1" |}
          (VerifierResponds (JsObject [("isOwner"%string, JsBool true)]));
        LoginResumes SignInOk 1002;
        LogoutResumes SignOutOk;
        CallbackStarts None])
  = true.
Proof.
  apply (interleaved_session_stays_consistent "store1" _ (initAuth true initial)).
  reflexivity.
Defined.

(** X30.  Who is signed in is not part of what stays consistent.  The
    callback sets [user] before it asks the verifier and the state after
    the answer: when the provider reports a sign-out while the verifier is
    still being asked, the answer that grants access leaves the session
    authenticated, with [isOwner] set, and no user. *)
Theorem late_answer_after_sign_out projectId (u : User)
    (outcome : VerifierOutcome) d :
  grants outcome = true ->
  let d' := run_segments projectId
              [CallbackStarts (Some u); CallbackStarts None;
               CallbackResumes u outcome] d in
  authMode d' = Authenticated /\ isOwner d' = true /\ user d' = None.
Proof.
  intros Hgrants. cbn zeta.
  unfold run_segments. cbn [fold_left run_segment callbackStarts].
  unfold callbackResumes. revert Hgrants. unfold grants.
  destruct outcome as [|data]; [by repeat split|].
  destruct data as [| [|] | | | |fields]; cbn; try discriminate;
    try by repeat split.
  unfold read_isOwner.
  destruct (field "isOwner" fields) as [[| [|] | | | |]|]; cbn;
    try discriminate; by repeat split.
Qed.

Lemma late_answer_after_sign_out_witness :
  let d' := run_segments "store1"
              [CallbackStarts (Some {| uid := "u1" |}); CallbackStarts None;
               CallbackResumes {| uid := "u1" |}
                 (VerifierResponds
                    (JsObject [("isOwner"%string, JsBool true)]))]
              (initAuth true initial) in
  authMode d' = Authenticated /\ isOwner d' = true /\ user d' = None.
Proof.
  apply (late_answer_after_sign_out "store1" {| uid := "u1" |}
           (VerifierResponds (JsObject [("isOwner"%string, JsBool true)]))
           (initAuth true initial)).
  reflexivity.
Defined.

(** No segment clears the lock either. *)
Lemma run_segment_keeps_lock projectId segment d :
  isLocked d = true -> isLocked (run_segment projectId segment d) = true.
Proof.
  intros H.
  destruct segment as [firebaseUser|u outcome|email password now1 now2
                      |outcome now|outcome|now1 now2]; cbn [run_segment].
  - by destruct firebaseUser.
  - unfold callbackResumes.
    destruct outcome as [|data]; [exact H|].
    destruct data as [| [|] | | | |fields]; cbn; try exact H.
    unfold read_isOwner.
    by destruct (field "isOwner" fields) as [[| [|] | | | |]|].
  - by apply loginStarts_fields.
  - by apply loginResumes_fields.
  - by destruct outcome.
  - by apply checkLockout_fields.
Qed.

Lemma handle_keeps_lock projectId e d :
  isLocked d = true -> isLocked (handle projectId e d) = true.
Proof.
  intros H.
  destruct e as [firebaseUser outcome|email password outcome now1 now2
                |outcome|now1 now2]; cbn [handle].
  - by callback_cases firebaseUser outcome.
  - by apply handleLogin_fields.
  - by destruct outcome.
  - by apply checkLockout_fields.
Qed.

(** X23.  No handler clears [isLocked]: once the form is locked it stays
    locked for the rest of the session, whatever happens next, a lockout
    that runs out and a sign-in that succeeds included. *)
Theorem lock_is_never_cleared projectId (events : list Event) d :
  isLocked d = true ->
  isLocked (fold_left (fun d e => handle projectId e d) events d) = true.
Proof.
  revert d. induction events as [|e events IH]; intros d H; [exact H|].
  cbn [fold_left]. by apply IH, handle_keeps_lock.
Qed.

Lemma lock_is_never_cleared_witness :
  let d := setIsLocked true (setAttempts locked_table (setAuthMode Login initial)) in
  isLocked
    (fold_left (fun d e => handle "store1" e d)
       [LockoutChecked 2000000 2000001;
        LoginSubmitted (txt "a@b.c") (txt "pw") SignInOk 2000002 2000003]
       d)
  = true.
Proof.
  intros d.
  apply (lock_is_never_cleared "store1" _ d).
  reflexivity.
Defined.

(** X24.  [checkLockout] on an identifier whose lockout has run out: the
    rate limiter forgets the identifier, so that sign-ins are allowed
    again, but the lock and the minutes shown stay as they were. *)
Theorem checkLockout_after_expiry projectId (now1 now2 : Z) d r t :
  attempts d !! identifier projectId = Some r ->
  lockedUntil r = Some t -> t <> 0 -> t <= now1 ->
  let d' := checkLockout projectId now1 now2 d in
  attempts d' = delete (identifier projectId) (attempts d) /\
  fst (canAttempt (identifier projectId) now2 (attempts d')) = true /\
  isLocked d' = isLocked d /\
  lockoutMinutes d' = lockoutMinutes d.
Proof.
  intros Hr Ht Hzero Hnow. cbn zeta. unfold checkLockout, limiter.
  rewrite !canAttempt_eq, Hr. unfold locked_and. rewrite Ht.
  apply Z.eqb_neq in Hzero as ->.
  assert ((now1 <? t) = false) as -> by by apply Z.ltb_ge.
  assert ((t <=? now1) = true) as -> by by apply Z.leb_le.
  cbn. by rewrite lookup_delete_eq.
Qed.

Lemma checkLockout_after_expiry_witness :
  let d := setIsLocked true (setAttempts locked_table (setAuthMode Login initial)) in
  let d' := checkLockout "store1" 2000000 2000001 d in
  attempts d' = delete (identifier "store1") (attempts d) /\
  fst (canAttempt (identifier "store1") 2000001 (attempts d')) = true /\
  isLocked d' = true /\
  lockoutMinutes d' = 0.
Proof.
  intros d.
  apply (checkLockout_after_expiry "store1" 2000000 2000001 d
           {| count := 5; firstAttempt := 1000; lockedUntil := Some 905000 |}
           905000).
  - reflexivity.
  - reflexivity.
  - lia.
  - lia.
Defined.

(** X25.  [handleLogout] touches nothing but [localStorage]: when the
    sign-out goes through, the keys [userId] and [projectId] are gone;
    when it throws, nothing changes.  The session leaves the
    authenticated state only when the provider then reports that no user
    is signed in. *)
Theorem handleLogout_effect projectId (outcome : SignOutOutcome)
    (verifier : VerifierOutcome) d :
  let d' := handleLogout outcome d in
  (authMode d' = authMode d /\ user d' = user d /\ isOwner d' = isOwner d /\
   attempts d' = attempts d /\ isLocked d' = isLocked d /\
   authError d' = authError d /\ calls d' = calls d) /\
  match outcome with
  | SignOutOk =>
      localStorage d'
      = delete "projectId"%string (delete "userId"%string (localStorage d)) /\
      localStorage d' !! "userId"%string = None /\
      localStorage d' !! "projectId"%string = None
  | SignOutFails => localStorage d' = localStorage d
  end /\
  let d'' := onAuthStateChanged projectId None verifier d' in
  authMode d'' = Login /\ user d'' = None /\ isOwner d'' = false /\
  localStorage d'' = localStorage d'.
Proof.
  cbn zeta. destruct outcome; cbn; repeat split.
  - by rewrite lookup_delete_ne, lookup_delete_eq.
  - by rewrite lookup_delete_eq.
Qed.

End SessionFacts.

(** * Properties of the payment status check *)

Section StripeFacts.
Import AdminDashboard StripeConnect.

(** Did the status request give a document whose [success] is truthy? *)
Definition succeeds (outcome : Response) : bool :=
  match outcome with
  | RequestFails => false
  | Responds data => truthy_value (property "success" data)
  end.

(** X26.  Without a project id [checkStripeConnect] does nothing at all,
    so that [loading] is not cleared.  With one, it posts exactly one
    request and [loading] ends up [false] whatever comes back; the status
    changes only when the document reports success, and then
    [chargesEnabled] is a truthy value or [false], [accountId] a truthy
    value or [null], and [connected] is [hasAccount] as it came. *)
Theorem checkStripeConnect_effect projectId (outcome : Response) (s : Stripe) :
  let s' := checkStripeConnect projectId outcome s in
  if String.eqb projectId "" then s' = s
  else
    loading s' = false /\
    requests s' = requests s ++ [projectId] /\
    if succeeds outcome then
      (exists data, outcome = Responds data
                    /\ connected s' = property "hasAccount" data) /\
      (truthy_value (chargesEnabled s') = true
       \/ chargesEnabled s' = VJson (JsBool false)) /\
      (truthy_value (accountId s') = true \/ accountId s' = VJson JsNull)
    else
      connected s' = connected s /\
      chargesEnabled s' = chargesEnabled s /\
      accountId s' = accountId s.
Proof.
  cbn zeta. unfold checkStripeConnect.
  destruct (String.eqb projectId ""); [reflexivity|].
  destruct outcome as [|data]; [by repeat split|].
  assert (forall x fallback,
            truthy_value (or_else x fallback) = true
            \/ or_else x fallback = VJson fallback) as Hor.
  { intros x fallback. unfold or_else.
    destruct (truthy_value x) eqn:Hx; [by left|by right]. }
  destruct data as [|b|q|str|items|fields]; try by repeat split.
  unfold succeeds.
  destruct (truthy_value (property "success" (JsObject fields)));
    cbn [loading requests connected chargesEnabled accountId stop_loading];
    repeat split; try apply Hor.
  by eexists.
Qed.

End StripeFacts.

(** * Properties of the checks on an image file *)

Section UploadFacts.
Import Text ImageUploader.

Lemma split_sep sep u v :
  split sep (u ++ sep :: v) = split sep u ++ split sep v.
Proof.
  induction u as [|c t IH]; cbn [app split].
  - by rewrite Ascii.eqb_refl.
  - rewrite IH. destruct (Ascii.eqb c sep); [reflexivity|].
    pose proof (split_nonempty sep t) as Hlen.
    destruct (split sep t); [simpl in Hlen; lia|reflexivity].
Qed.

(** The extension is what follows the last dot, in lower case. *)
Lemma extension_last stem ext :
  Forall (fun c => c <> "."%char) ext ->
  extension (stem ++ "."%char :: ext) = toLowerCase ext.
Proof.
  intros Hfree. unfold extension.
  by rewrite split_sep, (split_free _ _ Hfree), last_snoc.
Qed.

(** X27.  For a file whose name ends with a dot followed by [ext], the
    checks of [handleFileChange] let it through exactly when its type is
    one of the four image types, [ext] in lower case is one of the five
    extensions, and its size is at most 5 MiB: what comes before the last
    dot plays no part, and the extension is not compared with the type. *)
Theorem checkFile_accepts (ty stem ext : list ascii) (sz : Z) :
  Forall (fun c => c <> "."%char) ext ->
  let file := {| type := ty; name := stem ++ "."%char :: ext; size := sz |} in
  checkFile (Some file) = Some (inr file)
  <-> includes allowedTypes ty = true
      /\ includes validExtensions (toLowerCase ext) = true
      /\ (sz <= 5 * 1024 * 1024)%Z.
Proof.
  intros Hfree file. unfold checkFile. cbn [type name size file].
  rewrite (extension_last stem ext Hfree).
  destruct (includes allowedTypes ty); cbn [negb];
    [|split; [discriminate|intros (? & _); discriminate]].
  destruct (includes validExtensions (toLowerCase ext)); cbn [negb];
    [|split; [discriminate|intros (_ & ? & _); discriminate]].
  destruct (5 * 1024 * 1024 <? sz)%Z eqn:Hsize.
  - apply Z.ltb_lt in Hsize. split; [discriminate|intros (_ & _ & ?); lia].
  - apply Z.ltb_ge in Hsize. by repeat split.
Qed.

Lemma checkFile_accepts_witness :
  let file := {| type := txt "image/png";
                 name := txt "shell.php" ++ "."%char :: txt "JPG";
                 size := 1000 |} in
  checkFile (Some file) = Some (inr file).
Proof.
  intros file.
  apply (checkFile_accepts (txt "image/png") (txt "shell.php") (txt "JPG") 1000).
  - repeat constructor; discriminate.
  - repeat split; [reflexivity..|lia].
Defined.

End UploadFacts.

(** * Properties of the product form *)

Section SubmitFacts.
Import Text Regex SecurityUtils AdminDashboard.

(** What holds of a record that [handleSubmit] hands on. *)
Definition clean (form : ProductForm) (r : Product) : Prop :=
  (detectAttack (name form) = false /\
   detectAttack (description form) = false /\
   detectAttack (category form) = false) /\
  (1 <= length (p_name r) <= 200 /\
   Forall (fun c => is_dangerous c = false) (p_name r)) /\
  length (p_description r) <= 5000 /\
  (0 < p_price r)%Q /\
  (length (p_category r) <= 100 /\
   Forall (fun c => is_dangerous c = false) (p_category r)) /\
  (length (p_externalPaymentUrl r) <= 2000 /\
   (http_prefixed (p_externalPaymentUrl r) = true
    \/ p_externalPaymentUrl r = [] /\ truthy (externalPaymentUrl form) = false)) /\
  p_image r = image form.

(** X28.  Every record that [handleSubmit] hands to [addProduct] or
    [updateProduct] comes from a draft on whose name, description and
    category [detectAttack] did not fire, and has a name of 1 to 200
    code units and a category of at most 100, both free of the stripped
    characters, a description of at most 5000, a price above zero, and a
    payment URL of at most 2000 that starts with [http://] or [https://]
    or is empty because the field was left empty; the image is handed on
    as it is in the draft.  The record is an update exactly when a
    product is being edited. *)
Theorem handleSubmit_hands_on_clean_records (editing : option string)
    (form : ProductForm) :
  match handleSubmit editing form with
  | Rejected _ => True
  | Updated id r => editing = Some id /\ clean form r
  | Added r => editing = None /\ clean form r
  end.
Proof.
  unfold handleSubmit. cbv zeta.
  cbn [p_name p_price p_externalPaymentUrl].
  destruct (detectAttack (name form) || detectAttack (description form)
            || detectAttack (category form)) eqn:Hattack; [exact I|].
  destruct (length (sanitizeName (name form)) <? 1)%nat eqn:Hname; [exact I|].
  destruct (Qle_bool _ 0) eqn:Hprice; [exact I|].
  destruct (truthy (externalPaymentUrl form)
            && (length (sanitizeUrl (externalPaymentUrl form)) =? 0)%nat)
    eqn:Hurl; [exact I|].
  match goal with
  | |- match (match editing with Some id => Updated id ?r | None => Added ?r end)
       with _ => _ end =>
      assert (clean form r) as Hclean; [|by destruct editing]
  end.
  apply orb_false_elim in Hattack as [Hattack Hcategory].
  apply orb_false_elim in Hattack as [Hname' Hdescription].
  apply Nat.ltb_ge in Hname.
  destruct (sanitizeName_shape (name form)) as (Hn1 & _ & Hn2).
  destruct (sanitizeDescription_shape (description form)) as (_ & _ & Hd).
  destruct (sanitizeCategory_shape (category form)) as (Hc1 & _ & Hc2).
  destruct (sanitizeUrl_shape (externalPaymentUrl form)) as (_ & Hu1 & Hu2).
  unfold clean.
  cbn [p_name p_description p_price p_category p_externalPaymentUrl p_image].
  repeat split; try assumption.
  - apply Qnot_le_lt. intros Hle. apply Qle_bool_iff in Hle. congruence.
  - destruct Hu2 as [Hempty|Hhttp].
    + right. split; [assumption|]. rewrite Hempty in Hurl.
      by destruct (truthy (externalPaymentUrl form)).
    + left. by rewrite <- test_http_spec.
Qed.

(** X29.  A draft whose name, description or category is a text in which
    [<script] or [javascript:] occurs, in any letter case, is refused
    with the invalid-characters message, whatever its other fields hold:
    it is not cleaned and handed on. *)
Theorem draft_with_script_is_refused (editing : option string)
    (form : ProductForm) s :
  name form = JStr s \/ description form = JStr s \/ category form = JStr s ->
  occurs_ci (txt "<script") s = true \/ occurs_ci (txt "javascript:") s = true ->
  handleSubmit editing form = Rejected InvalidCharacters.
Proof.
  intros Hfield Hs. apply detectAttack_occurs in Hs.
  unfold handleSubmit. cbv zeta.
  destruct Hfield as [->|[->| ->]]; rewrite Hs, ?orb_true_r; reflexivity.
Qed.

Lemma draft_with_script_is_refused_witness :
  handleSubmit None
    {| name := JStr (txt "Shoe");
       description := JStr (txt "<SCRIPT src=//evil.example></SCRIPT>");
       price := JStr (txt "10");
       image := JStr [];
       category := JStr (txt "shoes");
       inStock := JOther true (txt "true");
       driveFileId := undefined;
       externalPaymentUrl := JStr [] |}
  = Rejected InvalidCharacters.
Proof.
  apply (draft_with_script_is_refused None _
           (txt "<SCRIPT src=//evil.example></SCRIPT>")).
  - right. left. reflexivity.
  - left. reflexivity.
Defined.

End SubmitFacts.
